(** * OpenSenseCam worker: a shallow embedding of [worker.py]

    The development follows the layout of the Python module: the numeric
    helpers ([_rat], [_deg_to_dms]), the EXIF builder ([make_exif]), the
    shared fix registry ([SharedState]) and the capture loop
    ([CameraPoller.run]).  Python exceptions are modelled by a small error
    monad; module-level globals ([GPS_AVAILABLE], [gps], the clocks) are
    gathered in an explicit environment record. *)

From Stdlib Require Import ZArith Znumtheory QArith Qabs Lia Bool List Ascii String.
From Stdlib Require Import SpecFloat.
From stdpp Require Import base option gmap strings pretty list fin_maps.

Local Open Scope Z_scope.

(** ** Python exceptions as an error monad *)

Inductive exn : Type :=
| AttributeError
| TypeError
| ValueError
| OverflowError
| ZeroDivisionError
| NameError
| RuntimeError
| OSError
| OutOfFuel. (* not a Python exception: a loop of the model ran out of fuel *)

Inductive result (A : Type) : Type :=
| OK (a : A)
| Raise (e : exn).
Arguments OK {A} a.
Arguments Raise {A} e.

#[global] Instance result_ret : MRet result := fun A a => OK a.
#[global] Instance result_bind : MBind result := fun A B k m =>
  match m with
  | OK a => k a
  | Raise e => Raise e
  end.

(** ** Python numbers

    A Python [float] is an IEEE 754 binary64 value; [spec_float] at
    precision 53 and maximal exponent 1024 is the Standard Library's
    executable specification of that format.  A Python [int] is a [Z]. *)

Definition prec : Z := 53.
Definition emax : Z := 1024.

Inductive number : Type :=
| PInt (z : Z)
| PFloat (f : spec_float).

Definition is_finite (f : spec_float) : bool :=
  match f with
  | S754_zero _ | S754_finite _ _ _ => true
  | S754_infinity _ | S754_nan => false
  end.

(** [float(z)] for an int [z]: correctly rounded, [OverflowError] when the
    int is too large for a float. *)
Definition float_of_int (z : Z) : result spec_float :=
  let f := binary_normalize prec emax z 0 false in
  if is_finite f then OK f else Raise OverflowError.

(** [int(f)] for a float [f]: truncation toward zero. *)
Definition int_of_float (f : spec_float) : result Z :=
  match f with
  | S754_zero _ => OK 0
  | S754_infinity _ => Raise OverflowError
  | S754_nan => Raise ValueError
  | S754_finite s m e =>
      OK (cond_Zopp s (if 0 <=? e then Z.pos m * 2 ^ e else Z.pos m / 2 ^ (- e)))
  end.

(** [abs(x)] *)
Definition py_abs (x : number) : number :=
  match x with
  | PInt z => PInt (Z.abs z)
  | PFloat f => PFloat (SFabs f)
  end.

(** [int(x)] *)
Definition py_int (x : number) : result Z :=
  match x with
  | PInt z => OK z
  | PFloat f => int_of_float f
  end.

(** [x - y]: int arithmetic on two ints, float arithmetic (after
    converting an int operand) otherwise. *)
Definition py_sub (x y : number) : result number :=
  match x, y with
  | PInt a, PInt b => OK (PInt (a - b))
  | PInt a, PFloat g => f ← float_of_int a; OK (PFloat (SFsub prec emax f g))
  | PFloat f, PInt b => g ← float_of_int b; OK (PFloat (SFsub prec emax f g))
  | PFloat f, PFloat g => OK (PFloat (SFsub prec emax f g))
  end.

(** [x * y] *)
Definition py_mul (x y : number) : result number :=
  match x, y with
  | PInt a, PInt b => OK (PInt (a * b))
  | PInt a, PFloat g => f ← float_of_int a; OK (PFloat (SFmul prec emax f g))
  | PFloat f, PInt b => g ← float_of_int b; OK (PFloat (SFmul prec emax f g))
  | PFloat f, PFloat g => OK (PFloat (SFmul prec emax f g))
  end.

(** [x >= 0] *)
Definition py_ge0 (x : number) : bool :=
  match x with
  | PInt z => 0 <=? z
  | PFloat f => SFleb (S754_zero false) f
  end.

(** ** [fractions.Fraction], as far as [_rat] uses it *)

Record Fraction : Type := { numerator : Z; denominator : Z }.

(** [Fraction(n, d)] for two ints: lowest terms, positive denominator. *)
Definition Fraction_of_ints (n d : Z) : result Fraction :=
  if d =? 0 then Raise ZeroDivisionError
  else
    let g := Z.gcd n d in
    let g := if d <? 0 then - g else g in
    OK {| numerator := n / g; denominator := d / g |}.

(** [float.as_integer_ratio]: the exact value of a finite float in lowest
    terms. *)
Definition as_integer_ratio (f : spec_float) : result (Z * Z) :=
  match f with
  | S754_zero _ => OK (0, 1)
  | S754_infinity _ => Raise OverflowError
  | S754_nan => Raise ValueError
  | S754_finite s m e =>
      if 0 <=? e then OK (cond_Zopp s (Z.pos m * 2 ^ e), 1)
      else
        let g := Z.gcd (Z.pos m) (2 ^ (- e)) in
        OK (cond_Zopp s (Z.pos m / g), 2 ^ (- e) / g)
  end.

(** [Fraction(x)] for one number. *)
Definition Fraction_of_number (x : number) : result Fraction :=
  match x with
  | PInt z => OK {| numerator := z; denominator := 1 |}
  | PFloat f =>
      '(n, d) ← as_integer_ratio f;
      OK {| numerator := n; denominator := d |}
  end.

(** [a - b] on fractions. *)
Definition Fraction_sub (a b : Fraction) : result Fraction :=
  Fraction_of_ints (numerator a * denominator b - numerator b * denominator a)
                   (denominator a * denominator b).

(** [abs(a)] *)
Definition Fraction_abs (a : Fraction) : Fraction :=
  {| numerator := Z.abs (numerator a); denominator := denominator a |}.

(** [a <= b] *)
Definition Fraction_le (a b : Fraction) : bool :=
  numerator a * denominator b <=? denominator a * numerator b.

(** The [while True] loop of [limit_denominator]; it returns
    [(p0, q0, p1, q1)] at the [break]. *)
Fixpoint limit_loop (fuel : nat) (max_denominator p0 q0 p1 q1 n d : Z)
  : result (Z * Z * Z * Z) :=
  match fuel with
  | O => Raise OutOfFuel
  | S fuel' =>
      if d =? 0 then Raise ZeroDivisionError
      else
        let a := n / d in
        let q2 := q0 + a * q1 in
        if q2 >? max_denominator then OK (p0, q0, p1, q1)
        else limit_loop fuel' max_denominator p1 q1 (p0 + a * p1) q2 d (n - a * d)
  end.

(** Enough iterations for the loop on a fraction of denominator [d]. *)
Definition limit_fuel (d : Z) : nat := Z.to_nat (2 * Z.log2 d + 4).

(** [Fraction.limit_denominator] *)
Definition limit_denominator (self : Fraction) (max_denominator : Z) : result Fraction :=
  if max_denominator <? 1 then Raise ValueError
  else if denominator self <=? max_denominator then OK self
  else
    '(p0, q0, p1, q1) ← limit_loop (limit_fuel (denominator self)) max_denominator
                          0 1 1 0 (numerator self) (denominator self);
    if q1 =? 0 then Raise ZeroDivisionError
    else
      let k := (max_denominator - q0) / q1 in
      bound1 ← Fraction_of_ints (p0 + k * p1) (q0 + k * q1);
      bound2 ← Fraction_of_ints p1 q1;
      d2 ← Fraction_sub bound2 self;
      d1 ← Fraction_sub bound1 self;
      if Fraction_le (Fraction_abs d2) (Fraction_abs d1) then OK bound2 else OK bound1.

(** ** Helpers of [worker.py] *)

Definition max_den_default : Z := 1000000.

(** [_rat(x, max_den)] *)
Definition _rat (x : number) (max_den : Z) : result (Z * Z) :=
  fx ← Fraction_of_number x;
  f ← limit_denominator fx max_den;
  OK (numerator f, denominator f).

(** [_deg_to_dms(dd)] *)
Definition _deg_to_dms (dd : number) : result ((Z * Z) * (Z * Z) * (Z * Z)) :=
  let dd := py_abs dd in
  d ← py_int dd;
  r ← py_sub dd (PInt d);
  m_float ← py_mul r (PInt 60);
  m ← py_int m_float;
  r' ← py_sub m_float (PInt m);
  s ← py_mul r' (PInt 60);
  rd ← _rat (PInt d) max_den_default;
  rm ← _rat (PInt m) max_den_default;
  rs ← _rat s max_den_default;
  OK (rd, rm, rs).

(** ** Dates and [strftime] *)

Record datetime : Type :=
  { year : Z; month : Z; day : Z; hour : Z; minute : Z; second : Z }.

(** [time.struct_time], as far as it is read. *)
Record struct_time : Type :=
  { tm_year : Z; tm_mon : Z; tm_mday : Z; tm_hour : Z; tm_min : Z; tm_sec : Z }.

Definition pad2 (n : Z) : string :=
  if n <? 10 then "0" +:+ pretty n else pretty n.

(** One conversion specification of [strftime]. *)
Definition strftime_directive (c : ascii) (dt : datetime) : string :=
  if Ascii.eqb c "Y" then pretty (year dt)
  else if Ascii.eqb c "m" then pad2 (month dt)
  else if Ascii.eqb c "d" then pad2 (day dt)
  else if Ascii.eqb c "H" then pad2 (hour dt)
  else if Ascii.eqb c "M" then pad2 (minute dt)
  else if Ascii.eqb c "S" then pad2 (second dt)
  else String "%" (String c EmptyString).

(** [dt.strftime(fmt)] for the directives the worker uses. *)
Fixpoint strftime (fmt : string) (dt : datetime) : string :=
  match fmt with
  | EmptyString => EmptyString
  | String c rest =>
      if Ascii.eqb c "%" then
        match rest with
        | EmptyString => String c EmptyString
        | String c' rest' => strftime_directive c' dt +:+ strftime rest' dt
        end
      else String c (strftime rest dt)
  end.

(** ** The EXIF dictionary of [piexif] *)

(** Tag numbers of the [piexif] package (the standard TIFF/EXIF tag ids). *)
Module piexif.
Module ImageIFD.
Definition Make : Z := 271.
Definition Model : Z := 272.
Definition Software : Z := 305.
Definition DateTime : Z := 306.
End ImageIFD.
Module ExifIFD.
Definition DateTimeOriginal : Z := 36867.
Definition DateTimeDigitized : Z := 36868.
Definition UserComment : Z := 37510.
End ExifIFD.
Module GPSIFD.
Definition GPSLatitudeRef : Z := 1.
Definition GPSLatitude : Z := 2.
Definition GPSLongitudeRef : Z := 3.
Definition GPSLongitude : Z := 4.
Definition GPSAltitudeRef : Z := 5.
Definition GPSAltitude : Z := 6.
Definition GPSTimeStamp : Z := 7.
Definition GPSDateStamp : Z := 29.
End GPSIFD.
End piexif.

Inductive exif_value : Type :=
| EStr (s : string)
| EBytes (b : string)
| EInt (z : Z)
| ERational (r : Z * Z)
| ERational3 (r : (Z * Z) * (Z * Z) * (Z * Z)).

(** [{"0th": {...}, "Exif": {...}, "GPS": {...}, ...}] *)
Abbreviation exif_dict := (gmap string (gmap Z exif_value)).

(** [exif[group][tag] = v]; every group the worker writes to exists. *)
Definition setitem (group : string) (tag : Z) (v : exif_value)
    (exif : gmap string (gmap Z exif_value)) : gmap string (gmap Z exif_value) :=
  alter (insert tag v) group exif.

(** ** The values of the configuration

    What [json.load] returns, and so what the module-level settings and
    the arguments [main] hands to [CameraPoller] can be. *)

#[local] Unset Elimination Schemes.
Inductive jval : Type :=
| JNone
| JBool (b : bool)
| JInt (z : Z)
| JFloat (f : spec_float)
| JStr (s : string)
| JList (l : list jval)
| JDict (d : gmap string jval).
#[local] Set Elimination Schemes.

(** ** [threading.Event.wait]

    [Event.wait(timeout)] on an event that is clear, as CPython 3.11 has
    it: [Condition.wait] waits without a limit for [None], evaluates
    [timeout > 0] for every other value, and calls
    [lock.acquire(True, timeout)] when that holds and [lock.acquire(False)]
    when it does not. *)

Inductive wait_result : Type :=
| WaitRaises (e : exn)   (* the call raises *)
| WaitTimeout            (* the call returns after the timeout at the latest *)
| WaitUntilSet.          (* the call returns only when the event is set *)

(** [1e9] and [2.0 ** 63] *)
Definition float_1e9 : spec_float := S754_finite false 8388608000000000 (-23).
Definition float_2_63 : spec_float := S754_finite false 4503599627370496 11.

(** A [str], a [list] and a [dict] do not compare with [0].  An int of
    more than 9223372036 seconds does not fit the 64-bit count of
    nanoseconds of [lock.acquire].  A float timeout is multiplied by
    [1e9]: below [2**63] nanoseconds it is accepted, above it is refused
    with [OverflowError], and at [2**63] itself the conversion to a 64-bit
    integer wraps to a negative count on x86-64, which [lock.acquire]
    refuses with [ValueError].  A NaN, a zero and a negative number are not
    [> 0]: the call returns at once. *)
Definition event_wait (timeout : jval) : wait_result :=
  match timeout with
  | JNone => WaitUntilSet
  | JBool _ => WaitTimeout
  | JInt n => if 9223372036 <? n then WaitRaises OverflowError else WaitTimeout
  | JFloat f =>
      if SFltb (S754_zero false) f then
        match SFcompare (SFmul prec emax f float_1e9) float_2_63 with
        | Some Lt => WaitTimeout
        | Some Eq => WaitRaises ValueError
        | _ => WaitRaises OverflowError
        end
      else WaitTimeout
  | JStr _ | JList _ | JDict _ => WaitRaises TypeError
  end.

(** ** Effects: standard output, the camera, the stop event *)

Inductive event : Type :=
| Print (line : string)
| PrintInterval (interval : jval)              (* "Polling the camera at {interval} seconds" *)
| PrintResolution (resolution : jval * jval)   (* "Photo resolution: {resolution}" *)
| CaptureFile
| SaveJPEG (out_path : string) (exif : option (gmap string (gmap Z exif_value)))
| PrintSaved (out_path : string) (exif : gmap string (gmap Z exif_value))
| Wait (timeout : jval)
| Close.

(** A computation that leaves a trace of events and returns or raises. *)
Record io (A : Type) : Type := IO { trace : list event; outcome : result A }.
Arguments IO {A} trace outcome.
Arguments trace {A} _.
Arguments outcome {A} _.

#[global] Instance io_ret : MRet io := fun A a => IO [] (OK a).
#[global] Instance io_bind : MBind io := fun A B k m =>
  match outcome m with
  | OK a => IO (trace m ++ trace (k a)) (outcome (k a))
  | Raise e => IO (trace m) (Raise e)
  end.

Definition lift {A : Type} (r : result A) : io A := IO [] r.
Definition print (line : string) : io unit := IO [Print line] (OK tt).
Definition emit (e : event) : io unit := IO [e] (OK tt).

(** ** Module-level state of [worker.py] *)

(** The flags set by the guarded imports, and the image directory. *)
Record globals : Type :=
  { GPS_AVAILABLE : bool; PICAMERA2 : bool; EXIF_OK : bool; IMAGE_DIR : string }.

(** The attributes of the global [gps] object that the worker reads. *)
Record receiver : Type :=
  { latitude : option spec_float;
    longitude : option spec_float;
    altitude_m : option spec_float;
    timestamp_utc : option struct_time }.

(** What one call of [make_exif] observes outside its arguments: the live
    receiver object and the system clock ([datetime.now(timezone.utc)]). *)
Record world : Type := { gps : receiver; utc_now : datetime }.

(** ** [make_exif] *)

Definition NUL : string := String "000"%char EmptyString.
Definition dquote : string := String "034"%char EmptyString.

(** [b"ASCII\0\0\0" + json.dumps({"project": "OpenSenseCam"},
    separators=(",", ":")).encode("ascii", "ignore")] *)
Definition user_comment : string :=
  "ASCII" +:+ NUL +:+ NUL +:+ NUL +:+ "{" +:+ dquote +:+ "project" +:+ dquote +:+ ":"
    +:+ dquote +:+ "OpenSenseCam" +:+ dquote +:+ "}".

(** The Python values that reach the [fix] parameter and the registry.
    [PyDict] is a plain [dict] (items, no [fix_quality] attribute);
    [PyFix] is a mapping object that also carries a [fix_quality]
    attribute, which is what [set_fix] reads from its argument. *)
Inductive pyobj : Type :=
| PyNone
| PyDict (items : gmap string Z)
| PyFix (fix_quality : Z) (items : gmap string Z).

(** [make_exif(now_local_dt, fix)].  The module globals and the state of
    the receiver and of the clock during the call are explicit. *)
Definition make_exif (g : globals) (w : world) (now_local_dt : datetime) (fix_ : pyobj)
  : io (gmap string (gmap Z exif_value)) :=
  if negb (EXIF_OK g) then lift (Raise NameError)
  else
    let exif : gmap string (gmap Z exif_value) :=
      {[ "0th" := ∅; "Exif" := ∅; "GPS" := ∅; "1st" := ∅; "Interop" := ∅ ]} in
    let dt_str := strftime "%Y:%m:%d %H:%M:%S" now_local_dt in
    let exif := setitem "0th" piexif.ImageIFD.DateTime (EStr dt_str) exif in
    let exif := setitem "Exif" piexif.ExifIFD.DateTimeOriginal (EStr dt_str) exif in
    let exif := setitem "Exif" piexif.ExifIFD.DateTimeDigitized (EStr dt_str) exif in
    let exif := setitem "0th" piexif.ImageIFD.Make (EStr "Raspberry Pi") exif in
    let exif := setitem "0th" piexif.ImageIFD.Model (EStr "Camera Module 3") exif in
    let exif := setitem "0th" piexif.ImageIFD.Software (EStr "OpenSenseCam Script") exif in
    let exif := setitem "0th" piexif.ImageIFD.DateTime (EStr dt_str) exif in
    let exif := setitem "Exif" piexif.ExifIFD.UserComment (EBytes user_comment) exif in
    if GPS_AVAILABLE g then
      let lat := latitude (gps w) in
      let lon := longitude (gps w) in
      let alt := altitude_m (gps w) in
      match lat with
      | None => print "No GPS in EXIF..";; mret exif
      | Some lat =>
          let exif := setitem "GPS" piexif.GPSIFD.GPSLatitudeRef
                        (EStr (if py_ge0 (PFloat lat) then "N" else "S")) exif in
          lat_dms ← lift (_deg_to_dms (PFloat lat));
          let exif := setitem "GPS" piexif.GPSIFD.GPSLatitude (ERational3 lat_dms) exif in
          lon ← lift (match lon with Some lon => OK lon | None => Raise TypeError end);
          let exif := setitem "GPS" piexif.GPSIFD.GPSLongitudeRef
                        (EStr (if py_ge0 (PFloat lon) then "E" else "W")) exif in
          lon_dms ← lift (_deg_to_dms (PFloat lon));
          let exif := setitem "GPS" piexif.GPSIFD.GPSLongitude (ERational3 lon_dms) exif in
          exif ← match alt with
                 | None => mret exif
                 | Some alt =>
                     let exif := setitem "GPS" piexif.GPSIFD.GPSAltitudeRef
                                   (EInt (if py_ge0 (PFloat alt) then 0 else 1)) exif in
                     r ← lift (_rat (py_abs (PFloat alt)) 1000);
                     mret (setitem "GPS" piexif.GPSIFD.GPSAltitude (ERational r) exif)
                 end;
          let ts_utc := utc_now w in
          let exif := setitem "GPS" piexif.GPSIFD.GPSDateStamp
                        (EStr (strftime "%Y:%m:%d" ts_utc)) exif in
          ts ← lift (match timestamp_utc (gps w) with
                     | Some ts => OK ts
                     | None => Raise AttributeError
                     end);
          h ← lift (_rat (PInt (tm_hour ts)) max_den_default);
          m ← lift (_rat (PInt (tm_min ts)) max_den_default);
          s ← lift (_rat (PInt (tm_sec ts)) max_den_default);
          mret (setitem "GPS" piexif.GPSIFD.GPSTimeStamp (ERational3 (h, m, s)) exif)
      end
    else mret exif.

(** ** [class SharedState] *)

Module SharedState.

(** [o.fix_quality] *)
Definition getattr_fix_quality (o : pyobj) : result Z :=
  match o with
  | PyNone => Raise AttributeError
  | PyDict _ => Raise AttributeError
  | PyFix q _ => OK q
  end.

(** [dict(o)] *)
Definition dict (o : pyobj) : result pyobj :=
  match o with
  | PyNone => Raise TypeError
  | PyDict items => OK (PyDict items)
  | PyFix _ items => OK (PyDict items)
  end.

(** The truth value of [o] in a conditional: [None] is false, a mapping is
    true when it has items. *)
Definition truthy (o : pyobj) : bool :=
  match o with
  | PyNone => false
  | PyDict items => negb (Nat.eqb (size items) 0)
  | PyFix _ items => negb (Nat.eqb (size items) 0)
  end.

Record t : Type := { _latest_fix : pyobj }.

(** [SharedState.__init__] *)
Definition __init__ : t := {| _latest_fix := PyNone |}.

(** [SharedState.set_fix].  The lock serialises the body, so one call is a
    function from the state before it to the state after it; when it
    raises, the state is the one before. *)
Definition set_fix (self : t) (fix_dict : pyobj) : io t :=
  held_q ← lift (getattr_fix_quality (_latest_fix self));
  cand_q ← lift (getattr_fix_quality fix_dict);
  if held_q <=? cand_q then
    print ("This latest GPS fix (" +:+ pretty cand_q
             +:+ ") is not better than the current (" +:+ pretty held_q
             +:+ "). Skipping.. ");;
    mret self
  else
    d ← lift (dict fix_dict);
    mret {| _latest_fix := d |}.

(** [SharedState.get_fix] *)
Definition get_fix (self : t) : result pyobj :=
  if truthy (_latest_fix self) then dict (_latest_fix self) else OK PyNone.

(** A caller that goes on after a call of [set_fix] that raised: the
    registry after the call, whatever its outcome. *)
Definition publish (self : t) (fix_dict : pyobj) : t :=
  match outcome (set_fix self fix_dict) with
  | OK self' => self'
  | Raise _ => self
  end.

Definition publish_all (self : t) (fixes : list pyobj) : t :=
  fold_left publish fixes self.

End SharedState.

(** ** [class CameraPoller] *)

Module CameraPoller.

Record t : Type :=
  { state : SharedState.t;
    interval : jval;
    resolution : jval * jval;
    jpeg_quality : Z;
    _pc2 : option unit }.

(** [CameraPoller.__init__]; [camera_starts] tells whether [Picamera2()],
    [configure] and [start] go through without an exception. *)
Definition __init__ (g : globals) (camera_starts : bool) (state : SharedState.t)
    (interval : jval) (resolution : jval * jval) (jpeg_quality : Z) : io t :=
  emit (PrintInterval interval);;
  emit (PrintResolution resolution);;
  mret {| state := state;
          interval := interval;
          resolution := resolution;
          jpeg_quality := jpeg_quality;
          _pc2 := if PICAMERA2 g then (if camera_starts then Some tt else None)
                  else None |}.

(** What one iteration of the loop in [run] meets: the local clock, the
    fixes other threads publish before the iteration reads the registry,
    the receiver and the UTC clock, the outcome of the capture and the time
    the capture takes, and the outcomes of [piexif.dump], [Image.open] and
    [im.save]. *)
Record cycle : Type :=
  { now_local : datetime;
    published : list pyobj;
    outside : world;
    frame : result string;
    capture_seconds : Z;
    dumped : result unit;
    opened : result unit;
    saved : result unit }.

(** [os.path.join(IMAGE_DIR, fname)] for a relative [fname]. *)
Definition path_join (dir fname : string) : string :=
  if String.eqb dir "" then fname
  else if String.eqb (String.substring (String.length dir - 1) 1 dir) "/"
       then dir +:+ fname
       else dir +:+ "/" +:+ fname.

(** One pass through the body of the [while] loop, from the snapshot
    [fix_] of the registry to the last statement before the wait. *)
Definition iteration (g : globals) (self : t) (fix_ : pyobj) (c : cycle) : io unit :=
  let now_local := now_local c in
  let fname := strftime "photo_%Y%m%d_%H%M%S.jpg" now_local in
  let out_path := path_join (IMAGE_DIR g) fname in
  if PICAMERA2 g && bool_decide (_pc2 self ≠ None) then
    print "Taking a photo..";;
    emit CaptureFile;;
    img_bytes ← lift (frame c);
    exif_dict ← make_exif g (outside c) now_local fix_;
    exif_bytes ← (if negb (Nat.eqb (size exif_dict) 0)
                  then lift (dumped c);; mret (Some exif_dict)
                  else mret None);
    lift (opened c);;
    emit (SaveJPEG out_path exif_bytes);;
    lift (saved c);;
    emit (PrintSaved out_path exif_dict)
  else
    print "[Camera] No camera found..".

(** The [while] loop, one iteration per element of [cycles]: each element
    is an iteration that found the stop event clear; the event is found
    set when the list is exhausted.  [self._stop.wait(self.interval)] ends
    an iteration: when it raises the loop is left, and when it waits
    without a timeout it returns with the event set, so that no further
    iteration starts. *)
Fixpoint run_loop (g : globals) (self : t) (st : SharedState.t) (cycles : list cycle)
  : io unit :=
  match cycles with
  | [] => mret tt
  | c :: cycles' =>
      let st := SharedState.publish_all st (published c) in
      fix_ ← lift (SharedState.get_fix st);
      iteration g self fix_ c;;
      match event_wait (interval self) with
      | WaitRaises e => lift (Raise e)
      | WaitUntilSet => emit (Wait (interval self))
      | WaitTimeout => emit (Wait (interval self));; run_loop g self st cycles'
      end
  end.

(** [CameraPoller.run]: the loop, then the [finally] clause. *)
Definition run (g : globals) (self : t) (cycles : list cycle) : io unit :=
  let r := run_loop g self (state self) cycles in
  if bool_decide (_pc2 self ≠ None) then IO (trace r ++ [Close]) (outcome r) else r.

End CameraPoller.

(** ** Configuration and [main] *)

Definition APP_ID : string := "opensensecam".
Definition APP_DIR : string := "/var/lib/" +:+ APP_ID.

Definition DEFAULT_CONFIG : gmap string jval :=
  {[ "folder" := JStr APP_DIR; "camera_index" := JInt 0; "interval" := JInt 10;
     "camera_mode" := JNone ]}.

(** What opening and parsing [CONFIG_PATH] comes to: the file is not
    there, something else goes wrong (permissions, invalid JSON), or the
    file holds a JSON value. *)
Inductive config_file : Type :=
| FileNotFound
| OtherFailure
| Loaded (v : jval).

(** [load_config()] *)
Definition load_config (file : config_file) : jval :=
  match file with
  | Loaded v => v
  | FileNotFound => JDict DEFAULT_CONFIG
  | OtherFailure => JDict DEFAULT_CONFIG
  end.

(** [o.get(key, default)]: only a dict has the method. *)
Definition dict_get (o : jval) (key : string) (default_ : jval) : result jval :=
  match o with
  | JDict d => OK (default default_ (d !! key))
  | _ => Raise AttributeError
  end.

Module Settings.
Record t : Type :=
  { folder : jval; mode : jval; note : jval; interval : jval; camera_mode : jval }.
End Settings.

(** The module-level assignments [cfg = load_config()] to
    [camera_mode = cfg.get("camera_mode")]. *)
Definition read_settings (file : config_file) : result Settings.t :=
  let cfg := load_config file in
  folder ← dict_get cfg "folder" (JStr APP_DIR);
  mode ← dict_get cfg "mode" (JStr "mode_a");
  note ← dict_get cfg "note" (JStr "");
  interval ← dict_get cfg "interval" (JStr "10");
  camera_mode ← dict_get cfg "camera_mode" JNone;
  OK {| Settings.folder := folder; Settings.mode := mode; Settings.note := note;
        Settings.interval := interval; Settings.camera_mode := camera_mode |}.

Inductive thread : Type := gps_thread | cam_thread.

(** What [main] does, in order: lines printed, pollers constructed,
    threads started, stopped and joined, and the one second sleeps while
    it waits for the keyboard interrupt. *)
Inductive main_event : Type :=
| MPrint (line : string)
| NewGPSPoller
| NewCameraPoller (interval : jval) (resolution : jval * jval) (jpeg_quality : Z)
| Start (th : thread)
| Sleep (seconds : Z)
| Stop (th : thread)
| Join (th : thread) (timeout : Z).

(** [main()], interrupted from the keyboard after [sleeps] sleeps; the
    result is what it returns, [1] or [None].  [cam_ended] tells whether
    the camera thread has ended when the two seconds of its [join] are
    over: [join] then calls [self._stop()], which for a [CameraPoller] is
    the [Event] that [__init__] assigned over the method of [Thread], and
    calling it raises [TypeError].  [GPSPoller] keeps its event under
    another name. *)
Definition main (g : globals) (s : Settings.t) (sleeps : nat) (cam_ended : bool)
  : list main_event * result (option Z) :=
  if negb (PICAMERA2 g) then ([MPrint "Camera not found.."], OK (Some 1))
  else
    let before := if GPS_AVAILABLE g then [NewGPSPoller] else [MPrint "GPS unavailable."] in
    match dict_get (Settings.camera_mode s) "width" JNone with
    | Raise e => (before, Raise e)
    | OK width =>
        match dict_get (Settings.camera_mode s) "height" JNone with
        | Raise e => (before, Raise e)
        | OK height =>
            (before
               ++ [NewCameraPoller (Settings.interval s) (width, height) 90]
               ++ (if GPS_AVAILABLE g then [Start gps_thread] else [])
               ++ [Start cam_thread]
               ++ repeat (Sleep 1) sleeps
               ++ (if GPS_AVAILABLE g
                   then [MPrint "Stopping GPS thread.."; Stop gps_thread; Join gps_thread 2]
                   else [])
               ++ [Stop cam_thread; Join cam_thread 2],
             if cam_ended then Raise TypeError else OK None)
        end
    end.

(** ** Observations used in the statements *)

(** The timeouts of the waits on the stop event in a trace, in order. *)
Definition waits (tr : list event) : list jval :=
  omap (fun e => match e with Wait timeout => Some timeout | _ => None end) tr.

(** The lines printed in a trace, in order. *)
Definition printed (tr : list event) : list string :=
  omap (fun e => match e with Print line => Some line | _ => None end) tr.

(** The value of a tag in the ["GPS"] group of the dictionary a call returned. *)
Definition gps_tag (r : io (gmap string (gmap Z exif_value))) (tag : Z) : option exif_value :=
  match outcome r with
  | OK exif => exif !! "GPS" ≫= (fun group => group !! tag)
  | Raise _ => None
  end.

(** A computation that never waits on the stop event. *)
Definition quiet {A : Type} (m : io A) : Prop := waits (trace m) = [].

Definition no_camera_line : string := "[Camera] No camera found..".

(** The image-info group [make_exif] writes for a capture time. *)
Definition image_info (now_local_dt : datetime) : gmap Z exif_value :=
  {[ piexif.ImageIFD.DateTime := EStr (strftime "%Y:%m:%d %H:%M:%S" now_local_dt);
     piexif.ImageIFD.Make := EStr "Raspberry Pi";
     piexif.ImageIFD.Model := EStr "Camera Module 3";
     piexif.ImageIFD.Software := EStr "OpenSenseCam Script" ]}.

(** The Exif group [make_exif] writes for a capture time. *)
Definition exif_info (now_local_dt : datetime) : gmap Z exif_value :=
  {[ piexif.ExifIFD.DateTimeOriginal := EStr (strftime "%Y:%m:%d %H:%M:%S" now_local_dt);
     piexif.ExifIFD.DateTimeDigitized := EStr (strftime "%Y:%m:%d %H:%M:%S" now_local_dt);
     piexif.ExifIFD.UserComment := EBytes user_comment ]}.

(** The dictionary with the five groups of [piexif]. *)
Definition exif_groups (zeroth exif gps first interop : gmap Z exif_value)
  : gmap string (gmap Z exif_value) :=
  {[ "0th" := zeroth; "Exif" := exif; "GPS" := gps; "1st" := first; "Interop" := interop ]}.

(** The positioning group [make_exif] writes from the receiver's latitude
    and longitude, their degree-minute-second forms, the altitude with its
    rational form when the receiver has one, the date stamp and the
    receiver's time. *)
Definition position_group (lat lon : spec_float) (lat_dms lon_dms : (Z * Z) * (Z * Z) * (Z * Z))
    (alt : option (spec_float * (Z * Z))) (date_stamp : string) (ts : struct_time)
  : gmap Z exif_value :=
  let group : gmap Z exif_value :=
    <[piexif.GPSIFD.GPSLongitude := ERational3 lon_dms]>
      (<[piexif.GPSIFD.GPSLongitudeRef := EStr (if py_ge0 (PFloat lon) then "E" else "W")]>
         (<[piexif.GPSIFD.GPSLatitude := ERational3 lat_dms]>
            (<[piexif.GPSIFD.GPSLatitudeRef := EStr (if py_ge0 (PFloat lat) then "N" else "S")]>
               ∅))) in
  let group :=
    match alt with
    | None => group
    | Some (alt, r) =>
        <[piexif.GPSIFD.GPSAltitude := ERational r]>
          (<[piexif.GPSIFD.GPSAltitudeRef := EInt (if py_ge0 (PFloat alt) then 0 else 1)]>
             group)
    end in
  <[piexif.GPSIFD.GPSTimeStamp :=
      ERational3 ((tm_hour ts, 1), (tm_min ts, 1), (tm_sec ts, 1))]>
    (<[piexif.GPSIFD.GPSDateStamp := EStr date_stamp]> group).

(** The double nearest to [n / d], for ints [n] and [d] that are floats
    themselves: the float a decimal literal such as [-33.865] denotes. *)
Definition float_of_decimal (n d : Z) : spec_float :=
  SFdiv prec emax (binary_normalize prec emax n 0 false)
                  (binary_normalize prec emax d 0 false).

(** The exact value [m * 2^e] of a finite float, as a rational. *)
Definition float_value (f : spec_float) : Q :=
  match f with
  | S754_finite s m e =>
      if 0 <=? e then inject_Z (cond_Zopp s (Z.pos m * 2 ^ e))
      else Qmake (cond_Zopp s (Z.pos m)) (2 ^ Z.to_pos (- e))
  | _ => 0%Q
  end.

(** The exact value of a Python number, as a rational. *)
Definition number_value (x : number) : Q :=
  match x with
  | PInt z => inject_Z z
  | PFloat f => float_value f
  end.

(** The numbers [Fraction] accepts: every int and every finite float. *)
Definition number_finite (x : number) : bool :=
  match x with
  | PInt _ => true
  | PFloat f => is_finite f
  end.

(** The invariant of the loop of [limit_denominator] on the fraction
    [N / D] with bound [M], from its second iteration on:
    [p0 / q0] and [p1 / q1] are consecutive convergents and [n / d] is the
    rest of the expansion. *)
Definition loop_inv (N D M p0 q0 p1 q1 n d : Z) : Prop :=
  N = p1 * n + p0 * d /\
  D = q1 * n + q0 * d /\
  (p1 * q0 - p0 * q1 = 1 \/ p1 * q0 - p0 * q1 = -1) /\
  0 <= q0 <= M /\
  1 <= q1 <= M /\
  0 <= d < n.

(** ** Sample inputs *)

Module Sample.

(** A Raspberry Pi with the receiver, the camera and [piexif] installed. *)
Definition g : globals :=
  {| GPS_AVAILABLE := true; PICAMERA2 := true; EXIF_OK := true;
     IMAGE_DIR := "/var/lib/opensensecam" |}.

(** The same without the receiver packages. *)
Definition g_no_gps : globals :=
  {| GPS_AVAILABLE := false; PICAMERA2 := true; EXIF_OK := true;
     IMAGE_DIR := "/var/lib/opensensecam" |}.

(** [-33.865], [151.25], [51.5] and [-0.125] as floats. *)
Definition lat_sydney : spec_float := Eval vm_compute in float_of_decimal (-33865) 1000.
Definition lon_sydney : spec_float := Eval vm_compute in float_of_decimal 15125 100.
Definition lat_london : spec_float := Eval vm_compute in float_of_decimal 515 10.
Definition lon_london : spec_float := Eval vm_compute in float_of_decimal (-125) 1000.

Definition gps_sydney : receiver :=
  {| latitude := Some lat_sydney; longitude := Some lon_sydney; altitude_m := None;
     timestamp_utc := Some {| tm_year := 2024; tm_mon := 3; tm_mday := 9;
                              tm_hour := 23; tm_min := 59; tm_sec := 58 |} |}.

Definition gps_london : receiver :=
  {| latitude := Some lat_london; longitude := Some lon_london; altitude_m := None;
     timestamp_utc := Some {| tm_year := 2024; tm_mon := 3; tm_mday := 9;
                              tm_hour := 23; tm_min := 59; tm_sec := 58 |} |}.

Definition gps_no_fix : receiver :=
  {| latitude := None; longitude := None; altitude_m := None; timestamp_utc := None |}.

(** The system clock reads 2024-03-10 00:00:03 UTC. *)
Definition utc : datetime :=
  {| year := 2024; month := 3; day := 10; hour := 0; minute := 0; second := 3 |}.

(** The local clock at the capture reads 2024-03-10 11:00:02. *)
Definition now : datetime :=
  {| year := 2024; month := 3; day := 10; hour := 11; minute := 0; second := 2 |}.

Definition w_sydney : world := {| gps := gps_sydney; utc_now := utc |}.
Definition w_london : world := {| gps := gps_london; utc_now := utc |}.
Definition w_no_fix : world := {| gps := gps_no_fix; utc_now := utc |}.

(** A fix that carries a quality and a position, and no timestamp. *)
Definition fix_no_timestamp : pyobj :=
  PyFix 1 {[ "latitude" := 51; "longitude" := 0 ]}.

(** One iteration whose capture takes three seconds. *)
Definition cycle3 : CameraPoller.cycle :=
  {| CameraPoller.now_local := now;
     CameraPoller.published := [];
     CameraPoller.outside := w_sydney;
     CameraPoller.frame := OK "jpeg";
     CameraPoller.capture_seconds := 3;
     CameraPoller.dumped := OK tt;
     CameraPoller.opened := OK tt;
     CameraPoller.saved := OK tt |}.

(** A poller with a ten second interval whose camera started. *)
Definition camera : CameraPoller.t :=
  {| CameraPoller.state := SharedState.__init__;
     CameraPoller.interval := JInt 10;
     CameraPoller.resolution := (JInt 2304, JInt 1296);
     CameraPoller.jpeg_quality := 90;
     CameraPoller._pc2 := Some tt |}.

(** The same poller when the camera did not start. *)
Definition camera_absent : CameraPoller.t :=
  {| CameraPoller.state := SharedState.__init__;
     CameraPoller.interval := JInt 10;
     CameraPoller.resolution := (JInt 2304, JInt 1296);
     CameraPoller.jpeg_quality := 90;
     CameraPoller._pc2 := None |}.

End Sample.

(** More sample inputs: a receiver that reports a position before it has
    a time. *)
Module Sample2.

Definition gps_no_timestamp : receiver :=
  {| latitude := Some Sample.lat_sydney; longitude := Some Sample.lon_sydney;
     altitude_m := None; timestamp_utc := None |}.

Definition w_no_timestamp : world :=
  {| gps := gps_no_timestamp; utc_now := Sample.utc |}.

Definition cycle_no_timestamp : CameraPoller.cycle :=
  {| CameraPoller.now_local := Sample.now;
     CameraPoller.published := [];
     CameraPoller.outside := w_no_timestamp;
     CameraPoller.frame := OK "jpeg";
     CameraPoller.capture_seconds := 1;
     CameraPoller.dumped := OK tt;
     CameraPoller.opened := OK tt;
     CameraPoller.saved := OK tt |}.

(** A receiver that reports a latitude and a time before it has a
    longitude. *)
Definition gps_no_longitude : receiver :=
  {| latitude := Some Sample.lat_sydney; longitude := None; altitude_m := None;
     timestamp_utc := timestamp_utc Sample.gps_sydney |}.

Definition w_no_longitude : world :=
  {| gps := gps_no_longitude; utc_now := Sample.utc |}.

(** An iteration whose capture fails. *)
Definition cycle_capture_fails : CameraPoller.cycle :=
  {| CameraPoller.now_local := Sample.now;
     CameraPoller.published := [];
     CameraPoller.outside := Sample.w_sydney;
     CameraPoller.frame := Raise RuntimeError;
     CameraPoller.capture_seconds := 1;
     CameraPoller.dumped := OK tt;
     CameraPoller.opened := OK tt;
     CameraPoller.saved := OK tt |}.

(** An iteration before which another thread publishes two fixes. *)
Definition cycle_published : CameraPoller.cycle :=
  {| CameraPoller.now_local := Sample.now;
     CameraPoller.published := [PyFix 1 {[ "lat" := 51 ]}; PyFix 4 {[ "lat" := 52 ]}];
     CameraPoller.outside := Sample.w_no_fix;
     CameraPoller.frame := OK "jpeg";
     CameraPoller.capture_seconds := 1;
     CameraPoller.dumped := OK tt;
     CameraPoller.opened := OK tt;
     CameraPoller.saved := OK tt |}.

End Sample2.

(** The iteration [c] when no other thread publishes a fix before it. *)
Definition without_published (c : CameraPoller.cycle) : CameraPoller.cycle :=
  {| CameraPoller.now_local := CameraPoller.now_local c;
     CameraPoller.published := [];
     CameraPoller.outside := CameraPoller.outside c;
     CameraPoller.frame := CameraPoller.frame c;
     CameraPoller.capture_seconds := CameraPoller.capture_seconds c;
     CameraPoller.dumped := CameraPoller.dumped c;
     CameraPoller.opened := CameraPoller.opened c;
     CameraPoller.saved := CameraPoller.saved c |}.

(** The registry after the publishes that the iterations [cycles] meet. *)
Definition registry_after (st : SharedState.t) (cycles : list CameraPoller.cycle)
  : SharedState.t :=
  fold_left (fun st c => SharedState.publish_all st (CameraPoller.published c)) cycles st.

(** The poller [self] on an empty registry. *)
Definition on_empty_registry (self : CameraPoller.t) : CameraPoller.t :=
  {| CameraPoller.state := SharedState.__init__;
     CameraPoller.interval := CameraPoller.interval self;
     CameraPoller.resolution := CameraPoller.resolution self;
     CameraPoller.jpeg_quality := CameraPoller.jpeg_quality self;
     CameraPoller._pc2 := CameraPoller._pc2 self |}.

(** ** Binary64 rounding in closed form *)

(** What [k] right shifts of a mantissa [m] leave: the quotient by [2^k],
    with the round and sticky bits telling where the remainder lies with
    respect to half of [2^k]. *)
Definition shr_inv (m : Z) (k : Z) (mrs : shr_record) : Prop :=
  exists rem : Z,
    m = shr_m mrs * 2 ^ k + rem /\
    0 <= rem < 2 ^ k /\
    0 <= shr_m mrs /\
    (shr_r mrs = true <-> 2 ^ k <= 2 * rem) /\
    (shr_s mrs = true <-> 2 * rem <> (if shr_r mrs then 2 ^ k else 0)).

(** Rounding [m / 2^k] to the nearest integer, ties to even. *)
Definition rne_shift (m k : Z) : Z :=
  let q := m / 2 ^ k in
  let rem := m mod 2 ^ k in
  if 2 * rem <? 2 ^ k then q
  else if 2 * rem =? 2 ^ k then (if Z.even q then q else q + 1)
  else q + 1.

(** The result of [binary_round_aux] on an exact positive mantissa, in
    closed form. *)
Definition round_model (s : bool) (mx : positive) (ex : Z) : spec_float :=
  let n := fexp prec emax (Z.pos (digits2_pos mx) + ex) - ex in
  if n <=? 0 then
    (if ex <=? emax - prec then S754_finite s mx ex else S754_infinity s)
  else
    let e1 := ex + n in
    match rne_shift (Z.pos mx) n with
    | Z0 => S754_zero s
    | Z.pos p =>
        if Z.pos p =? 2 ^ prec then
          (if e1 + 1 <=? emax - prec then S754_finite s (Z.to_pos (2 ^ (prec - 1))) (e1 + 1)
           else S754_infinity s)
        else (if e1 <=? emax - prec then S754_finite s p e1 else S754_infinity s)
    | Z.neg _ => S754_nan
    end.

(** ** Values of floats as integers: the value times [2^1200] *)

(** A float that is zero or positive, finite, with a mantissa below
    [2^53] and an exponent in the range of binary64. *)
Definition good (f : spec_float) : Prop :=
  f = S754_zero false \/
  exists (m : positive) (e : Z),
    f = S754_finite false m e /\ -1074 <= e <= 971 /\ Z.pos m < 2 ^ 53.

(** The value of a float times [2^1200], an integer for every exponent
    from [-1200] up. *)
Definition scaled (f : spec_float) : Z :=
  match f with
  | S754_finite s m e => cond_Zopp s (Z.pos m * 2 ^ (e + 1200))
  | _ => 0
  end.

(** An integer that is [2^1200] times the value of a positive binary64
    float. *)
Definition representable (v : Z) : Prop :=
  exists m e : Z, 0 < m < 2 ^ 53 /\ -1074 <= e <= 971 /\ v = m * 2 ^ (e + 1200).

(** The float [60.0], as [float(60)] gives it. *)
Definition float_60 : spec_float := S754_finite false 8444249301319680 (-47).

(** * Properties *)

(** ** The error and trace monads *)

Lemma result_bind_OK_inv {A B : Type} (m : result A) (k : A -> result B) (b : B) :
  m ≫= k = OK b -> exists a, m = OK a /\ k a = OK b.
Proof. destruct m as [a|e]; simpl; [eauto | discriminate]. Qed.

Lemma io_bind_lift {A B : Type} (r : result A) (k : A -> io B) :
  lift r ≫= k = match r with OK a => k a | Raise e => IO [] (Raise e) end.
Proof.
  destruct r as [a|e]; unfold mbind, io_bind, lift; simpl; [|reflexivity].
  destruct (k a); reflexivity.
Qed.

Lemma io_bind_outcome_OK_inv {A B : Type} (m : io A) (k : A -> io B) (b : B) :
  outcome (m ≫= k) = OK b -> exists a, outcome m = OK a /\ outcome (k a) = OK b.
Proof.
  unfold mbind, io_bind. destruct (outcome m) as [a|e]; simpl; [eauto | discriminate].
Qed.

Lemma io_bind_trace {A B : Type} (m : io A) (k : A -> io B) :
  trace (m ≫= k) =
  trace m ++ match outcome m with OK a => trace (k a) | Raise _ => [] end.
Proof.
  unfold mbind, io_bind. destruct (outcome m); simpl; [reflexivity|].
  symmetry. apply app_nil_r.
Qed.

Lemma io_bind_emit {B : Type} (e : event) (k : unit -> io B) :
  emit e ≫= k = IO (e :: trace (k tt)) (outcome (k tt)).
Proof. reflexivity. Qed.

Ltac io_simpl :=
  repeat (unfold mbind, io_bind, result_bind, mret, io_ret, result_ret,
            lift, print, emit; simpl).

(** ** The fix registry *)

Lemma get_fix_total (self : SharedState.t) :
  exists o, SharedState.get_fix self = OK o.
Proof.
  unfold SharedState.get_fix.
  destruct (SharedState._latest_fix self) as [|items|q items]; simpl;
    try destruct (negb _); eauto.
Qed.

Lemma publish_init (fix_dict : pyobj) :
  SharedState.publish SharedState.__init__ fix_dict = SharedState.__init__.
Proof. reflexivity. Qed.

Lemma publish_all_init (fixes : list pyobj) :
  SharedState.publish_all SharedState.__init__ fixes = SharedState.__init__.
Proof.
  unfold SharedState.publish_all.
  induction fixes as [|f fixes IH]; simpl; [reflexivity|].
  rewrite publish_init. exact IH.
Qed.

(** With a held object that does carry a quality, [set_fix] keeps the held
    fix when the candidate's quality is greater or equal, and takes the
    candidate when its quality is lower. *)
Lemma set_fix_held_quality (q cq : Z) (items citems : gmap string Z) :
  SharedState.set_fix {| SharedState._latest_fix := PyFix q items |} (PyFix cq citems) =
  if q <=? cq then
    IO [Print ("This latest GPS fix (" +:+ pretty cq
                 +:+ ") is not better than the current (" +:+ pretty q
                 +:+ "). Skipping.. ")]
       (OK {| SharedState._latest_fix := PyFix q items |})
  else IO [] (OK {| SharedState._latest_fix := PyDict citems |}).
Proof.
  unfold SharedState.set_fix. io_simpl.
  destruct (q <=? cq); reflexivity.
Qed.

(** C1, on the code: every call of [set_fix] on the registry as
    [__init__] leaves it raises [AttributeError], so after any sequence of
    published fixes the snapshot is still [None]; it is not the fix of
    maximal quality.  Where the held object does carry a quality, one of
    greater or equal quality is skipped and a lower one replaces it. *)
Theorem publish_sequence_snapshot_absent :
  (forall fixes : list pyobj,
     SharedState.get_fix (SharedState.publish_all SharedState.__init__ fixes) = OK PyNone) /\
  SharedState.get_fix
    (SharedState.publish_all SharedState.__init__
       [PyFix 1 {[ "lat" := 51 ]}; PyFix 4 {[ "lat" := 52 ]}]) = OK PyNone /\
  (forall (q cq : Z) (items citems : gmap string Z),
     outcome (SharedState.set_fix {| SharedState._latest_fix := PyFix q items |}
                (PyFix cq citems)) =
     OK {| SharedState._latest_fix := if q <=? cq then PyFix q items else PyDict citems |}).
Proof.
  split; [|split].
  - intros fixes. rewrite publish_all_init. reflexivity.
  - rewrite publish_all_init. reflexivity.
  - intros q cq items citems. rewrite set_fix_held_quality.
    destruct (q <=? cq); reflexivity.
Qed.

(** C2, on the code: on a registry that holds no fix, [set_fix] raises
    [AttributeError] for every candidate, prints nothing and stores
    nothing. *)
Theorem set_fix_on_empty_raises (fix_dict : pyobj) :
  SharedState.set_fix SharedState.__init__ fix_dict = IO [] (Raise AttributeError) /\
  SharedState.publish SharedState.__init__ fix_dict = SharedState.__init__.
Proof. split; reflexivity. Qed.

(** C9: [get_fix] on a registry on which [set_fix] was never called returns
    [None]. *)
Theorem get_fix_before_publish :
  SharedState.get_fix SharedState.__init__ = OK PyNone.
Proof. unfold SharedState.get_fix, SharedState.__init__. simpl. reflexivity. Qed.

(** ** The capture loop *)

Lemma waits_app (l1 l2 : list event) : waits (l1 ++ l2) = waits l1 ++ waits l2.
Proof. unfold waits. apply omap_app. Qed.

Lemma printed_app (l1 l2 : list event) : printed (l1 ++ l2) = printed l1 ++ printed l2.
Proof. unfold printed. apply omap_app. Qed.

Lemma quiet_bind {A B : Type} (m : io A) (k : A -> io B) :
  quiet m -> (forall a, quiet (k a)) -> quiet (m ≫= k).
Proof.
  unfold quiet. intros Hm Hk. rewrite io_bind_trace, waits_app, Hm.
  destruct (outcome m); simpl; [apply Hk | reflexivity].
Qed.

Lemma quiet_lift {A : Type} (r : result A) : quiet (lift r).
Proof. reflexivity. Qed.

Lemma quiet_ret {A : Type} (a : A) : quiet (mret a).
Proof. reflexivity. Qed.

Lemma quiet_print (line : string) : quiet (print line).
Proof. reflexivity. Qed.

Ltac quiet_tac :=
  repeat first
    [ apply quiet_lift | apply quiet_ret | apply quiet_print
    | apply quiet_bind; [|intros]
    | match goal with
      | |- quiet (match ?x with _ => _ end) => destruct x
      end ].

Lemma make_exif_quiet (g : globals) (w : world) (now_local_dt : datetime) (fix_ : pyobj) :
  quiet (make_exif g w now_local_dt fix_).
Proof. unfold make_exif. quiet_tac. Qed.

Lemma iteration_quiet (g : globals) (self : CameraPoller.t) (fix_ : pyobj)
    (c : CameraPoller.cycle) :
  quiet (CameraPoller.iteration g self fix_ c).
Proof.
  unfold CameraPoller.iteration. destruct (_ && _); [|apply quiet_print].
  quiet_tac; try reflexivity. apply make_exif_quiet.
Qed.

(** The two constants of [event_wait] are the floats of [10**9] and
    [2**63]. *)
Lemma float_1e9_2_63 :
  float_of_int (10 ^ 9) = OK float_1e9 /\ float_of_int (2 ^ 63) = OK float_2_63.
Proof. split; reflexivity. Qed.

(** Only [None] makes the wait last until the event is set. *)
Lemma event_wait_until_set (timeout : jval) :
  event_wait timeout = WaitUntilSet <-> timeout = JNone.
Proof.
  split; [|intros ->; reflexivity].
  destruct timeout as [|b|n|f|s|l|d]; simpl; try discriminate; try reflexivity.
  - destruct (9223372036 <? n); discriminate.
  - destruct (SFltb _ f); [|discriminate].
    destruct (SFcompare _ _) as [[]|]; discriminate.
Qed.

Lemma run_loop_waits (g : globals) (self : CameraPoller.t) (cycles : list CameraPoller.cycle) :
  forall st : SharedState.t,
  exists n : nat,
    (n <= length cycles)%nat /\
    (outcome (CameraPoller.run_loop g self st cycles) = OK tt ->
     n = length cycles \/ (CameraPoller.interval self = JNone /\ n = 1%nat)) /\
    waits (trace (CameraPoller.run_loop g self st cycles)) =
      replicate n (CameraPoller.interval self).
Proof.
  induction cycles as [|c cycles IH]; intros st.
  - exists 0%nat. split; [reflexivity|]. split; [intros _; left; reflexivity | reflexivity].
  - cbn [CameraPoller.run_loop].
    set (st' := SharedState.publish_all st (CameraPoller.published c)).
    destruct (get_fix_total st') as [o Ho]. rewrite Ho, io_bind_lift.
    destruct (IH st') as (n & Hn & Hout & Hw).
    pose proof (iteration_quiet g self o c) as Hq.
    set (body := CameraPoller.iteration g self o c) in *.
    rewrite io_bind_trace, waits_app, Hq.
    unfold mbind at 1. unfold io_bind at 1.
    destruct (outcome body) as [[]|e] eqn:Hb.
    + destruct (event_wait (CameraPoller.interval self)) as [e| |] eqn:Hwait.
      * exists 0%nat. simpl. repeat split; [lia | discriminate].
      * exists (S n). rewrite io_bind_emit. simpl. repeat split.
        -- lia.
        -- intros H. destruct (Hout H) as [->|[HN ->]]; [left; reflexivity|].
           rewrite HN in Hwait. discriminate Hwait.
        -- f_equal. exact Hw.
      * exists 1%nat. simpl. repeat split; [lia|].
        intros _. right. split; [|reflexivity].
        apply event_wait_until_set. exact Hwait.
    + exists 0%nat. simpl. repeat split; [lia | discriminate].
Qed.

Lemma run_loop_no_camera (g : globals) (self : CameraPoller.t)
    (cycles : list CameraPoller.cycle) :
  CameraPoller._pc2 self = None ->
  forall st : SharedState.t,
    CameraPoller.run_loop g self st cycles =
    match event_wait (CameraPoller.interval self) with
    | WaitTimeout =>
        IO (flat_map (fun _ => [Print no_camera_line; Wait (CameraPoller.interval self)]) cycles)
           (OK tt)
    | WaitUntilSet =>
        IO (flat_map (fun _ => [Print no_camera_line; Wait (CameraPoller.interval self)])
                     (take 1 cycles))
           (OK tt)
    | WaitRaises e =>
        match cycles with
        | [] => IO [] (OK tt)
        | _ :: _ => IO [Print no_camera_line] (Raise e)
        end
    end.
Proof.
  intros Hpc2.
  assert (Hit : forall fix_ c,
             CameraPoller.iteration g self fix_ c = print no_camera_line).
  { intros fix_ c. unfold CameraPoller.iteration. rewrite Hpc2.
    replace (PICAMERA2 g && bool_decide (@None unit <> None)) with false
      by (destruct (PICAMERA2 g); reflexivity).
    reflexivity. }
  induction cycles as [|c cycles IH]; intros st.
  - destruct (event_wait _); reflexivity.
  - cbn [CameraPoller.run_loop flat_map].
    destruct (get_fix_total (SharedState.publish_all st (CameraPoller.published c)))
      as [o Ho].
    rewrite Ho, io_bind_lift, Hit.
    specialize (IH (SharedState.publish_all st (CameraPoller.published c))).
    destruct (event_wait (CameraPoller.interval self)) as [e| |]; [reflexivity| |].
    + rewrite IH. reflexivity.
    + destruct cycles; reflexivity.
Qed.

(** C5, as the code has it: when the camera handle is unavailable
    ([Picamera2] missing, or its start-up raised in [__init__]), an
    iteration of the loop prints the no-camera line and then waits on the
    stop event with the configured interval as its timeout.  With an
    interval the wait accepts, the loop goes on like this until the stop
    event is set.  With the interval [None] the first wait lasts until the
    event is set.  With an interval the wait refuses (a string, as the
    default ["10"] of the settings is) the exception of the first wait
    ends the loop. *)
Theorem run_without_camera (g : globals) (camera_starts : bool) (st : SharedState.t)
    (iv : jval) (res : jval * jval) (q : Z) (self : CameraPoller.t)
    (cycles : list CameraPoller.cycle) :
  outcome (CameraPoller.__init__ g camera_starts st iv res q) = OK self ->
  PICAMERA2 g = false \/ camera_starts = false ->
  CameraPoller.run g self cycles =
  match event_wait iv with
  | WaitTimeout => IO (flat_map (fun _ => [Print no_camera_line; Wait iv]) cycles) (OK tt)
  | WaitUntilSet =>
      IO (flat_map (fun _ => [Print no_camera_line; Wait iv]) (take 1 cycles)) (OK tt)
  | WaitRaises e =>
      match cycles with
      | [] => IO [] (OK tt)
      | _ :: _ => IO [Print no_camera_line] (Raise e)
      end
  end.
Proof.
  intros Hinit Hcam.
  assert (Hself : CameraPoller._pc2 self = None /\ CameraPoller.interval self = iv).
  { injection Hinit as <-. simpl. split; [|reflexivity].
    destruct Hcam as [-> | ->]; [reflexivity|]. destruct (PICAMERA2 g); reflexivity. }
  destruct Hself as [Hpc2 Hiv].
  unfold CameraPoller.run. rewrite Hpc2. simpl.
  rewrite run_loop_no_camera by exact Hpc2. rewrite Hiv. reflexivity.
Qed.

Lemma run_without_camera_witness :
  outcome (CameraPoller.__init__ Sample.g false SharedState.__init__ (JInt 10)
             (JInt 2304, JInt 1296) 90)
    = OK Sample.camera_absent /\
  (PICAMERA2 Sample.g = false \/ false = false) /\
  CameraPoller.run Sample.g Sample.camera_absent [Sample.cycle3; Sample.cycle3] =
  IO [Print no_camera_line; Wait (JInt 10); Print no_camera_line; Wait (JInt 10)] (OK tt).
Proof.
  split; [reflexivity|]. split; [right; reflexivity|].
  apply (run_without_camera Sample.g false SharedState.__init__ (JInt 10)
           (JInt 2304, JInt 1296) 90 Sample.camera_absent [Sample.cycle3; Sample.cycle3]).
  - reflexivity.
  - right. reflexivity.
Defined.

(** C5 as stated fails: with the camera absent, a ten second interval and
    three iterations before the stop event is set, the line is printed
    three times and the loop waits three times. *)
Lemma run_without_camera_keeps_cycling :
  let tr := trace (CameraPoller.run Sample.g Sample.camera_absent
                     [Sample.cycle3; Sample.cycle3; Sample.cycle3]) in
  printed tr = [no_camera_line; no_camera_line; no_camera_line] /\
  waits tr = [JInt 10; JInt 10; JInt 10] /\
  length (printed tr) <> 1%nat.
Proof. vm_compute. repeat split. discriminate. Qed.

(** C6, as the code has it: every finished iteration waits on the stop
    event with the configured interval as its timeout, whatever the capture
    took; an iteration that raises ends the loop without a wait.  There is
    one wait for each iteration when the run ends normally; only with the
    interval [None], where the first wait lasts until the event is set,
    there is one wait in all. *)
Theorem run_waits_full_interval (g : globals) (self : CameraPoller.t)
    (cycles : list CameraPoller.cycle) :
  exists n : nat,
    (n <= length cycles)%nat /\
    (outcome (CameraPoller.run g self cycles) = OK tt ->
     n = length cycles \/ (CameraPoller.interval self = JNone /\ n = 1%nat)) /\
    waits (trace (CameraPoller.run g self cycles)) = replicate n (CameraPoller.interval self).
Proof.
  destruct (run_loop_waits g self cycles (CameraPoller.state self)) as (n & Hn & Hout & Hw).
  exists n. unfold CameraPoller.run.
  destruct (bool_decide _); simpl; [|auto].
  rewrite waits_app, Hw. simpl. rewrite app_nil_r. auto.
Qed.

(** C6 as stated fails: with a ten second interval and a capture that
    takes three seconds the loop waits ten seconds, not seven. *)
Lemma run_wait_ignores_capture_time :
  let tr := trace (CameraPoller.run Sample.g Sample.camera [Sample.cycle3]) in
  waits tr = [JInt 10] /\
  waits tr <> [JInt (Z.max 0 (10 - CameraPoller.capture_seconds Sample.cycle3))].
Proof. vm_compute. split; [reflexivity | discriminate]. Qed.

(** ** [make_exif] *)

Lemma rat_int (z : Z) : _rat (PInt z) max_den_default = OK (z, 1).
Proof. reflexivity. Qed.

(** C10: [make_exif] never reads its [fix] parameter, and with the receiver
    packages present it takes the positioning fields from the receiver
    object as it is during the call: the same capture time and the same
    fix, here the snapshot [None] of an empty registry, give a southern
    latitude with one state of the receiver and a northern one with
    another. *)
Theorem make_exif_ignores_fix_reads_receiver :
  (forall (g : globals) (w : world) (now_local_dt : datetime) (fix1 fix2 : pyobj),
     make_exif g w now_local_dt fix1 = make_exif g w now_local_dt fix2) /\
  gps_tag (make_exif Sample.g Sample.w_sydney Sample.now PyNone)
    piexif.GPSIFD.GPSLatitudeRef = Some (EStr "S") /\
  gps_tag (make_exif Sample.g Sample.w_london Sample.now PyNone)
    piexif.GPSIFD.GPSLatitudeRef = Some (EStr "N") /\
  make_exif Sample.g Sample.w_sydney Sample.now PyNone <>
  make_exif Sample.g Sample.w_london Sample.now PyNone.
Proof.
  split; [reflexivity|].
  assert (Hs : gps_tag (make_exif Sample.g Sample.w_sydney Sample.now PyNone)
                 piexif.GPSIFD.GPSLatitudeRef = Some (EStr "S"))
    by (vm_compute; reflexivity).
  assert (Hl : gps_tag (make_exif Sample.g Sample.w_london Sample.now PyNone)
                 piexif.GPSIFD.GPSLatitudeRef = Some (EStr "N"))
    by (vm_compute; reflexivity).
  split; [exact Hs|]. split; [exact Hl|].
  intros Heq. rewrite Heq, Hl in Hs. discriminate Hs.
Qed.

(** With [piexif] present and no position to write (the receiver packages
    are missing, or the receiver reports no latitude), [make_exif] called
    with [fix = None] returns without raising a dictionary whose
    image-info group holds the capture time, make, model and software and
    whose positioning group is empty. *)
Theorem make_exif_no_fix_time_only (g : globals) (w : world) (now_local_dt : datetime) :
  EXIF_OK g = true ->
  GPS_AVAILABLE g = false \/ latitude (gps w) = None ->
  exists exif : gmap string (gmap Z exif_value),
    outcome (make_exif g w now_local_dt PyNone) = OK exif /\
    exif !! "GPS" = Some ∅ /\
    exif !! "0th" = Some (image_info now_local_dt) /\
    image_info now_local_dt <> ∅.
Proof.
  intros Hexif Hgps. unfold make_exif, image_info. rewrite Hexif. simpl negb. cbv iota.
  generalize (strftime "%Y:%m:%d %H:%M:%S" now_local_dt). intros dt_str.
  assert (Hne : ({[ piexif.ImageIFD.DateTime := EStr dt_str;
                    piexif.ImageIFD.Make := EStr "Raspberry Pi";
                    piexif.ImageIFD.Model := EStr "Camera Module 3";
                    piexif.ImageIFD.Software := EStr "OpenSenseCam Script" ]}
                 : gmap Z exif_value) <> ∅).
  { intros H. apply (f_equal (fun m => m !! piexif.ImageIFD.Make)) in H.
    vm_compute in H. discriminate H. }
  destruct (GPS_AVAILABLE g) eqn:Hav.
  - destruct Hgps as [Hgps | Hgps]; [discriminate Hgps|]. rewrite Hgps.
    eexists. split; [reflexivity|]. split; [|split]; [vm_compute; reflexivity ..| exact Hne].
  - eexists. split; [reflexivity|]. split; [|split]; [vm_compute; reflexivity ..| exact Hne].
Qed.

Lemma make_exif_no_fix_time_only_witness :
  EXIF_OK Sample.g = true /\
  (GPS_AVAILABLE Sample.g = false \/ latitude (gps Sample.w_no_fix) = None) /\
  exists exif : gmap string (gmap Z exif_value),
    outcome (make_exif Sample.g Sample.w_no_fix Sample.now PyNone) = OK exif /\
    exif !! "GPS" = Some ∅ /\
    exif !! "0th" = Some (image_info Sample.now) /\
    image_info Sample.now <> ∅.
Proof.
  split; [reflexivity|]. split; [right; reflexivity|].
  apply (make_exif_no_fix_time_only Sample.g Sample.w_no_fix Sample.now).
  - reflexivity.
  - right. reflexivity.
Defined.

(** C4: the absent fix does not decide what [make_exif] writes.  Called
    with [fix = None] while the receiver object reports a position, it
    fills the positioning group from the receiver; while the receiver
    reports a latitude and no timestamp it raises [AttributeError], and
    while the receiver reports a latitude and no longitude it raises
    [TypeError]. *)
Theorem make_exif_no_fix_still_positioned :
  (exists exif : gmap string (gmap Z exif_value),
     outcome (make_exif Sample.g Sample.w_sydney Sample.now PyNone) = OK exif /\
     exif !! "GPS" <> Some ∅ /\
     gps_tag (make_exif Sample.g Sample.w_sydney Sample.now PyNone)
       piexif.GPSIFD.GPSLatitude = Some (ERational3 ((33, 1), (51, 1), (54, 1)))) /\
  outcome (make_exif Sample.g Sample2.w_no_timestamp Sample.now PyNone)
    = Raise AttributeError /\
  outcome (make_exif Sample.g Sample2.w_no_longitude Sample.now PyNone)
    = Raise TypeError.
Proof.
  split; [|split; vm_compute; reflexivity].
  eexists. split; [vm_compute; reflexivity|]. split; [|vm_compute; reflexivity].
  intros H. apply (f_equal (fun o => o ≫= (fun m : gmap Z exif_value => m !! 1))) in H.
  vm_compute in H. discriminate H.
Qed.

Lemma outcome_ret_inv {A : Type} (a b : A) : outcome (mret a) = OK b -> a = b.
Proof. intros H. injection H as H. exact H. Qed.

Lemma io_bind_ret {A B : Type} (a : A) (k : A -> io B) : mret a ≫= k = k a.
Proof. unfold mbind, io_bind, mret, io_ret. simpl. destruct (k a); reflexivity. Qed.

Lemma make_exif_gps_group (g : globals) (w : world) (now_local_dt : datetime) (fix_ : pyobj)
    (exif : gmap string (gmap Z exif_value)) (lat : spec_float) :
  outcome (make_exif g w now_local_dt fix_) = OK exif ->
  GPS_AVAILABLE g = true ->
  latitude (gps w) = Some lat ->
  exists (ts : struct_time) (group : gmap Z exif_value),
    timestamp_utc (gps w) = Some ts /\
    exif !! "GPS" =
      Some (<[piexif.GPSIFD.GPSTimeStamp :=
                ERational3 ((tm_hour ts, 1), (tm_min ts, 1), (tm_sec ts, 1))]>
              (<[piexif.GPSIFD.GPSDateStamp := EStr (strftime "%Y:%m:%d" (utc_now w))]>
                 group)).
Proof.
  unfold make_exif. intros H Hav Hlat. rewrite Hav, Hlat in H.
  destruct (EXIF_OK g); [|discriminate H]. simpl negb in H. cbv iota in H.
  revert H.
  generalize (strftime "%Y:%m:%d %H:%M:%S" now_local_dt). intros dt_str.
  repeat match goal with
  | |- context [lift ?r ≫= _] =>
      rewrite (io_bind_lift r); destruct r eqn:?; [|intros H; discriminate H]
  | |- context [_rat (PInt ?z) max_den_default] => rewrite (rat_int z)
  end.
  intros H. apply io_bind_outcome_OK_inv in H as (exif0 & H0 & H).
  assert (Hgrp : exists group0 : gmap Z exif_value, exif0 !! "GPS" = Some group0).
  { destruct (altitude_m (gps w)) as [alt|].
    - rewrite io_bind_lift in H0. destruct (_rat _ 1000); [|discriminate H0].
      apply outcome_ret_inv in H0. subst exif0. eexists. vm_compute. reflexivity.
    - apply outcome_ret_inv in H0. subst exif0. eexists. vm_compute. reflexivity. }
  destruct Hgrp as [group0 Hgrp].
  rewrite io_bind_lift in H.
  destruct (timestamp_utc (gps w)) as [ts|]; [|discriminate H].
  rewrite rat_int, io_bind_lift, rat_int, io_bind_lift, rat_int, io_bind_lift in H.
  injection H as <-. exists ts, group0. split; [reflexivity|].
  unfold setitem. rewrite !lookup_alter_eq, Hgrp. reflexivity.
Qed.

(** Where the positioning stamps come from: in every dictionary
    [make_exif] returns with the positioning group written (receiver
    packages present, the receiver reports a latitude), [GPSTimeStamp] is
    the hour, minute and second of the receiver object's own timestamp and
    [GPSDateStamp] is the UTC date of the system clock during the call,
    whatever the [fix] argument. *)
Theorem make_exif_gps_stamps (g : globals) (w : world) (now_local_dt : datetime)
    (fix_ : pyobj) (lat : spec_float) (exif : gmap string (gmap Z exif_value)) :
  outcome (make_exif g w now_local_dt fix_) = OK exif ->
  GPS_AVAILABLE g = true ->
  latitude (gps w) = Some lat ->
  exists ts : struct_time,
    timestamp_utc (gps w) = Some ts /\
    gps_tag (make_exif g w now_local_dt fix_) piexif.GPSIFD.GPSDateStamp =
      Some (EStr (strftime "%Y:%m:%d" (utc_now w))) /\
    gps_tag (make_exif g w now_local_dt fix_) piexif.GPSIFD.GPSTimeStamp =
      Some (ERational3 ((tm_hour ts, 1), (tm_min ts, 1), (tm_sec ts, 1))).
Proof.
  intros H Hav Hlat.
  destruct (make_exif_gps_group g w now_local_dt fix_ exif lat H Hav Hlat)
    as (ts & group & Hts & Hgrp).
  exists ts. split; [exact Hts|].
  unfold gps_tag. rewrite H, Hgrp. simpl. split.
  - rewrite lookup_insert_ne by discriminate. apply lookup_insert_eq.
  - apply lookup_insert_eq.
Qed.

Lemma make_exif_gps_stamps_witness :
  exists exif : gmap string (gmap Z exif_value),
    outcome (make_exif Sample.g Sample.w_sydney Sample.now Sample.fix_no_timestamp) = OK exif /\
    GPS_AVAILABLE Sample.g = true /\
    latitude (gps Sample.w_sydney) = Some Sample.lat_sydney /\
    exists ts : struct_time,
      timestamp_utc (gps Sample.w_sydney) = Some ts /\
      gps_tag (make_exif Sample.g Sample.w_sydney Sample.now Sample.fix_no_timestamp)
        piexif.GPSIFD.GPSDateStamp = Some (EStr (strftime "%Y:%m:%d" (utc_now Sample.w_sydney))) /\
      gps_tag (make_exif Sample.g Sample.w_sydney Sample.now Sample.fix_no_timestamp)
        piexif.GPSIFD.GPSTimeStamp =
        Some (ERational3 ((tm_hour ts, 1), (tm_min ts, 1), (tm_sec ts, 1))).
Proof.
  assert (H : exists exif : gmap string (gmap Z exif_value),
            outcome (make_exif Sample.g Sample.w_sydney Sample.now Sample.fix_no_timestamp)
            = OK exif)
    by (eexists; vm_compute; reflexivity).
  destruct H as [exif H]. exists exif.
  split; [exact H|]. split; [reflexivity|]. split; [reflexivity|].
  apply (make_exif_gps_stamps Sample.g Sample.w_sydney Sample.now Sample.fix_no_timestamp
           Sample.lat_sydney exif H); reflexivity.
Defined.

(** C3: the fix passed in carries no timestamp, and the positioning date
    and time are written all the same; the date is the one of the system
    clock (10 March), a day after the date the receiver reports with the
    time it supplies (9 March, 23:59:58). *)
Theorem make_exif_stamps_without_fix_timestamp :
  let r := make_exif Sample.g Sample.w_sydney Sample.now Sample.fix_no_timestamp in
  gps_tag r piexif.GPSIFD.GPSDateStamp = Some (EStr "2024:03:10") /\
  gps_tag r piexif.GPSIFD.GPSTimeStamp = Some (ERational3 ((23, 1), (59, 1), (58, 1))) /\
  (tm_mday <$> timestamp_utc (gps Sample.w_sydney)) = Some 9 /\
  day (utc_now Sample.w_sydney) = 10.
Proof. vm_compute. repeat split. Qed.

(** ** [limit_denominator]: the closest fraction with a bounded denominator *)

Lemma Fraction_of_ints_coprime (n d : Z) :
  0 < d -> Z.gcd n d = 1 ->
  Fraction_of_ints n d = OK {| numerator := n; denominator := d |}.
Proof.
  intros Hd Hg. unfold Fraction_of_ints. rewrite Hg.
  destruct (Z.eqb_spec d 0) as [->|_]; [lia|].
  destruct (Z.ltb_spec d 0) as [Hneg|_]; [lia|].
  rewrite !Z.div_1_r. reflexivity.
Qed.

Lemma det_coprime (a b c d : Z) :
  a * d - b * c = 1 \/ a * d - b * c = -1 -> Z.gcd a b = 1.
Proof.
  intros Hdet.
  assert (Hdiv : (Z.gcd a b | a * d - b * c)).
  { apply Z.divide_sub_r; apply Z.divide_mul_l;
      [apply Z.gcd_divide_l | apply Z.gcd_divide_r]. }
  apply Z.divide_1_r_nonneg; [apply Z.gcd_nonneg|].
  destruct Hdet as [H | H]; rewrite H in Hdiv; [exact Hdiv|].
  apply Z.divide_opp_r in Hdiv. exact Hdiv.
Qed.

Lemma between_neighbours (q1 Q s u v : Z) :
  0 < q1 -> 0 < Q -> 0 < s < Q + q1 -> u * q1 + v * Q = s -> u <= 0 \/ v <= 0.
Proof.
  intros Hq1 HQ Hs Hsum.
  destruct (Z_le_gt_dec u 0) as [Hu|Hu]; [left; exact Hu|].
  destruct (Z_le_gt_dec v 0) as [Hv|Hv]; [right; exact Hv|].
  exfalso.
  assert (q1 <= u * q1) by nia.
  assert (Q <= v * Q) by nia.
  lia.
Qed.

Lemma far_side (X Q s E c u : Z) :
  0 < c -> 0 < Q -> X * Q = s * E - c * u -> u <= 0 -> s * E <= Z.abs X * Q.
Proof.
  intros Hc HQ HX Hu.
  assert (c * u <= 0) by nia.
  assert (X * Q <= Z.abs X * Q)
    by (apply Z.mul_le_mono_nonneg_r; lia).
  lia.
Qed.

Lemma pick_closer (d E Q q1 s A : Z) :
  0 < Q -> 0 < q1 -> 0 <= s -> 0 <= A ->
  d * Q <= E * q1 -> s * E <= A * Q -> d * s <= A * q1.
Proof.
  intros HQ Hq1 Hs HA Hcmp Hfar.
  apply (Z.mul_le_mono_pos_r _ _ Q HQ).
  assert (H1 : s * (d * Q) <= s * (E * q1)) by (apply Z.mul_le_mono_nonneg_l; lia).
  assert (H2 : s * E * q1 <= A * Q * q1) by (apply Z.mul_le_mono_nonneg_r; lia).
  lia.
Qed.

(** [Fraction(X, Y)] with a positive [Y] divides both by their gcd. *)
Lemma Fraction_of_ints_pos (X Y : Z) :
  0 < Y ->
  exists g x y : Z,
    0 < g /\ X = g * x /\ Y = g * y /\ 0 < y /\
    Fraction_of_ints X Y = OK {| numerator := x; denominator := y |}.
Proof.
  intros HY. unfold Fraction_of_ints.
  destruct (Z.eqb_spec Y 0) as [->|_]; [lia|].
  destruct (Z.ltb_spec Y 0) as [Hneg|_]; [lia|].
  pose proof (Z.gcd_nonneg X Y) as Hg0.
  assert (Hg : 0 < Z.gcd X Y).
  { destruct (Z.eq_dec (Z.gcd X Y) 0) as [H0|]; [|lia].
    apply Z.gcd_eq_0_r in H0. lia. }
  destruct (Z.gcd_divide_l X Y) as [x Hx]. destruct (Z.gcd_divide_r X Y) as [y Hy].
  exists (Z.gcd X Y), x, y.
  assert (HXg : X / Z.gcd X Y = x) by (rewrite Hx at 1; apply Z.div_mul; lia).
  assert (HYg : Y / Z.gcd X Y = y) by (rewrite Hy at 1; apply Z.div_mul; lia).
  rewrite HXg, HYg. repeat split; lia.
Qed.

(** The comparison [abs(a - x) <= abs(b - x)] of [limit_denominator], on
    numerators and denominators. *)
Lemma Fraction_closer (a b x : Fraction) :
  0 < denominator a -> 0 < denominator b -> 0 < denominator x ->
  exists da db : Fraction,
    Fraction_sub a x = OK da /\
    Fraction_sub b x = OK db /\
    (Fraction_le (Fraction_abs da) (Fraction_abs db) = true <->
     Z.abs (numerator x * denominator a - numerator a * denominator x) * denominator b <=
     Z.abs (numerator x * denominator b - numerator b * denominator x) * denominator a).
Proof.
  destruct a as [an ad], b as [bn bd], x as [xn xd]. simpl. intros Ha Hb Hx.
  unfold Fraction_sub. simpl.
  destruct (Fraction_of_ints_pos (an * xd - xn * ad) (ad * xd)) as
    (g & u & y & Hg & Hu & Hy & Hy0 & ->); [nia|].
  destruct (Fraction_of_ints_pos (bn * xd - xn * bd) (bd * xd)) as
    (g' & u' & y' & Hg' & Hu' & Hy' & Hy0' & ->); [nia|].
  eexists _, _. split; [reflexivity|]. split; [reflexivity|].
  unfold Fraction_le, Fraction_abs. simpl. rewrite Z.leb_le.
  replace (xn * ad - an * xd) with (- (g * u)) by lia.
  replace (xn * bd - bn * xd) with (- (g' * u')) by lia.
  rewrite !Z.abs_opp, !Z.abs_mul, (Z.abs_eq g), (Z.abs_eq g') by lia.
  set (U := Z.abs u). set (U' := Z.abs u').
  assert (HU : 0 <= U) by apply Z.abs_nonneg.
  assert (HU' : 0 <= U') by apply Z.abs_nonneg.
  clearbody U U'.
  assert (EL : g * g' * (U * y') = g * U * bd * xd).
  { transitivity (g * U * (g' * y')); [ring|]. rewrite <- Hy'. ring. }
  assert (ER : g * g' * (y * U') = g' * U' * ad * xd).
  { transitivity (g' * U' * (g * y)); [ring|]. rewrite <- Hy. ring. }
  assert (Hgg : 0 < g * g') by nia.
  split; intros H.
  - apply (Z.mul_le_mono_pos_r _ _ xd Hx). rewrite <- EL, <- ER.
    apply Z.mul_le_mono_nonneg_l; [lia | exact H].
  - apply (Z.mul_le_mono_pos_l _ _ (g * g') Hgg). rewrite EL, ER.
    apply Z.mul_le_mono_nonneg_r; [lia | exact H].
Qed.

Lemma limit_loop_S (fuel : nat) (max_denominator p0 q0 p1 q1 n d : Z) :
  limit_loop (S fuel) max_denominator p0 q0 p1 q1 n d =
  if d =? 0 then Raise ZeroDivisionError
  else if q0 + n / d * q1 >? max_denominator then OK (p0, q0, p1, q1)
       else limit_loop fuel max_denominator p1 q1 (p0 + n / d * p1) (q0 + n / d * q1)
              d (n - n / d * d).
Proof. reflexivity. Qed.

Section LimitDenominator.

Variables N D M : Z.
Hypothesis D_pos : 0 < D.
Hypothesis coprime : Z.gcd N D = 1.
Hypothesis M_pos : 1 <= M.
Hypothesis D_large : M < D.

(** The loop never divides by zero. *)
Lemma loop_inv_d_pos (p0 q0 p1 q1 n d : Z) :
  loop_inv N D M p0 q0 p1 q1 n d -> 0 < d.
Proof.
  intros (HN & HD & _ & _ & Hq1 & Hd).
  destruct (Z.eq_dec d 0) as [->|]; [exfalso | lia].
  rewrite Z.mul_0_r, Z.add_0_r in HN, HD.
  assert (Hn1 : n = 1).
  { apply Z.divide_1_r_nonneg; [lia|]. rewrite <- coprime.
    apply Z.gcd_greatest; [exists p1 | exists q1]; assumption. }
  subst n. lia.
Qed.

Lemma loop_inv_step (p0 q0 p1 q1 n d : Z) :
  loop_inv N D M p0 q0 p1 q1 n d ->
  q0 + n / d * q1 <= M ->
  loop_inv N D M p1 q1 (p0 + n / d * p1) (q0 + n / d * q1) d (n - n / d * d).
Proof.
  intros Hinv Hq2. pose proof (loop_inv_d_pos _ _ _ _ _ _ Hinv) as Hd.
  destruct Hinv as (HN & HD & Hdet & Hq0 & Hq1 & Hdn).
  pose proof (Z.div_mod n d ltac:(lia)) as Hdm.
  pose proof (Z.mod_pos_bound n d Hd) as Hmod.
  assert (Ha : 1 <= n / d) by (apply Z.div_le_lower_bound; lia).
  unfold loop_inv. repeat split; lia.
Qed.

(** The product [n * d] at least halves with every iteration. *)
Lemma loop_measure_step (n d : Z) :
  0 < d < n -> 2 * (d * (n - n / d * d)) < n * d.
Proof.
  intros Hd.
  pose proof (Z.div_mod n d ltac:(lia)) as Hdm.
  pose proof (Z.mod_pos_bound n d ltac:(lia)) as Hmod.
  assert (Ha : 1 <= n / d) by (apply Z.div_le_lower_bound; lia).
  nia.
Qed.

Lemma limit_loop_breaks (fuel : nat) :
  forall p0 q0 p1 q1 n d : Z,
    loop_inv N D M p0 q0 p1 q1 n d ->
    n * d < 2 ^ Z.of_nat fuel ->
    exists p0' q0' p1' q1' n' d' : Z,
      limit_loop (S fuel) M p0 q0 p1 q1 n d = OK (p0', q0', p1', q1') /\
      loop_inv N D M p0' q0' p1' q1' n' d' /\
      M < q0' + n' / d' * q1'.
Proof.
  induction fuel as [|fuel IH]; intros p0 q0 p1 q1 n d Hinv Hm;
    pose proof (loop_inv_d_pos _ _ _ _ _ _ Hinv) as Hd;
    assert (Hdn : 0 < d < n) by (destruct Hinv as (_ & _ & _ & _ & _ & ?); lia).
  - simpl in Hm. nia.
  - cbn [limit_loop].
    destruct (Z.eqb_spec d 0) as [->|_]; [lia|].
    destruct (Z.gtb_spec (q0 + n / d * q1) M) as [Hbrk|Hcont].
    + exists p0, q0, p1, q1, n, d. auto.
    + apply IH.
      * apply loop_inv_step; [exact Hinv | lia].
      * pose proof (loop_measure_step n d Hdn) as Hstep.
        rewrite Nat2Z.inj_succ, Z.pow_succ_r in Hm by lia. lia.
Qed.


(** At the [break]: the two candidates [p1 / q1] and
    [(p0 + k * p1) / (q0 + k * q1)] are neighbours that enclose [N / D],
    and no fraction with a denominator up to [M] lies strictly between
    them, so each such fraction is at least as far from [N / D] as one of
    the two. *)
Lemma break_candidates (p0 q0 p1 q1 n d : Z) :
  loop_inv N D M p0 q0 p1 q1 n d ->
  M < q0 + n / d * q1 ->
  let k := (M - q0) / q1 in
  let P := p0 + k * p1 in
  let Q := q0 + k * q1 in
  0 < Q <= M /\
  (p1 * Q - P * q1 = 1 \/ p1 * Q - P * q1 = -1) /\
  0 < d /\ 0 < n - k * d /\
  Z.abs (N * q1 - p1 * D) = d /\
  Z.abs (N * Q - P * D) = n - k * d /\
  forall r s : Z, 0 < s <= M ->
    s * (n - k * d) <= Z.abs (N * s - r * D) * Q \/
    s * d <= Z.abs (N * s - r * D) * q1.
Proof.
  intros Hinv Hbrk k P Q.
  pose proof (loop_inv_d_pos _ _ _ _ _ _ Hinv) as Hd.
  destruct Hinv as (HN & HD & Hdet & Hq0 & Hq1 & Hdn).
  pose proof (Z.div_mod (M - q0) q1 ltac:(lia)) as Hk.
  pose proof (Z.mod_pos_bound (M - q0) q1 ltac:(lia)) as Hkm.
  fold k in Hk.
  pose proof (Z.div_mod n d ltac:(lia)) as Ha.
  pose proof (Z.mod_pos_bound n d Hd) as Ham.
  set (a := n / d) in *.
  assert (Hk0 : 0 <= k) by (apply Z.div_pos; lia).
  assert (HQ : 0 < Q <= M /\ M < Q + q1) by (unfold Q; lia).
  assert (Hka : k + 1 <= a).
  { assert (k * q1 < a * q1) by (unfold Q in HQ; lia).
    assert (k < a) by (apply (Z.mul_lt_mono_pos_r q1); lia). lia. }
  assert (He : d <= n - k * d).
  { assert ((k + 1) * d <= a * d) by (apply Z.mul_le_mono_nonneg_r; lia). lia. }
  assert (HdetQ : p1 * Q - P * q1 = p1 * q0 - p0 * q1) by (unfold P, Q; ring).
  assert (HNq1 : N * q1 - p1 * D = - (p1 * q0 - p0 * q1) * d) by (rewrite HN, HD; ring).
  assert (HNQ : N * Q - P * D = (p1 * q0 - p0 * q1) * (n - k * d))
    by (rewrite HN, HD; unfold P, Q; ring).
  split; [lia|]. split; [lia|]. split; [lia|]. split; [lia|].
  split; [destruct Hdet as [H|H]; rewrite HNq1, H; lia|].
  split; [destruct Hdet as [H|H]; rewrite HNQ, H; lia|].
  intros r s Hs.
  assert (Hsum : (r * Q - P * s) * q1 + (p1 * s - r * q1) * Q
                 = s * (p1 * q0 - p0 * q1)) by (rewrite <- HdetQ; ring).
  assert (HuD : (N * s - r * D) * Q = s * (N * Q - P * D) - D * (r * Q - P * s)) by ring.
  assert (HvD : (N * s - r * D) * q1 = s * (N * q1 - p1 * D) + D * (p1 * s - r * q1)) by ring.
  rewrite HNQ in HuD. rewrite HNq1 in HvD.
  set (u := r * Q - P * s) in *. set (v := p1 * s - r * q1) in *.
  set (X := N * s - r * D) in *. set (E := n - k * d) in *.
  clearbody u v X E Q P k a. clear HN HD HNQ HNq1 HdetQ.
  destruct Hdet as [H|H]; rewrite H in *.
  - destruct (between_neighbours q1 Q s u v) as [Hu|Hv];
      [lia | lia | lia | lia | left | right].
    + apply (far_side X Q s E D u); lia.
    + rewrite <- Z.abs_opp. apply (far_side (- X) q1 s d D v); lia.
  - destruct (between_neighbours q1 Q s (- u) (- v)) as [Hu|Hv];
      [lia | lia | lia | lia | left | right].
    + rewrite <- Z.abs_opp. apply (far_side (- X) Q s E D (- u)); lia.
    + apply (far_side X q1 s d D (- v)); lia.
Qed.

Lemma limit_fuel_enough (r : Z) :
  0 <= r < D -> D * r < 2 ^ Z.of_nat (Z.to_nat (2 * Z.log2 D + 2)).
Proof.
  intros Hr. pose proof (Z.log2_nonneg D) as Hl.
  destruct (Z.log2_spec D D_pos) as [_ Hup].
  rewrite Z2Nat.id by lia.
  replace (2 * Z.log2 D + 2) with (Z.succ (Z.log2 D) + Z.succ (Z.log2 D)) by lia.
  rewrite Z.pow_add_r by lia.
  set (B := 2 ^ Z.succ (Z.log2 D)) in *.
  assert (D * r < D * D) by nia.
  assert (D * D < B * B) by nia.
  lia.
Qed.

(** [limit_denominator] on a fraction in lowest terms whose denominator
    exceeds the bound. *)
Lemma limit_denominator_large :
  exists p q : Z,
    limit_denominator {| numerator := N; denominator := D |} M
      = OK {| numerator := p; denominator := q |} /\
    0 < q <= M /\
    Z.gcd p q = 1 /\
    forall r s : Z, 0 < s <= M ->
      Z.abs (N * q - p * D) * s <= Z.abs (N * s - r * D) * q.
Proof.
  unfold limit_denominator. simpl.
  destruct (Z.ltb_spec M 1) as [H|_]; [lia|].
  destruct (Z.leb_spec D M) as [H|_]; [lia|].
  unfold limit_fuel.
  replace (Z.to_nat (2 * Z.log2 D + 4)) with (S (S (Z.to_nat (2 * Z.log2 D + 2))))
    by (pose proof (Z.log2_nonneg D); lia).
  rewrite limit_loop_S.
  destruct (Z.eqb_spec D 0) as [H|_]; [lia|].
  rewrite Z.mul_0_r, Z.add_0_r.
  destruct (Z.gtb_spec 1 M) as [H|_]; [lia|].
  pose proof (Z.div_mod N D ltac:(lia)) as Hdm.
  pose proof (Z.mod_pos_bound N D D_pos) as Hmod.
  destruct (limit_loop_breaks (Z.to_nat (2 * Z.log2 D + 2))
              1 0 (0 + N / D * 1) 1 D (N - N / D * D))
    as (p0 & q0 & p1 & q1 & n & d & Hloop & Hinv & Hbrk).
  { unfold loop_inv. repeat split; lia. }
  { apply limit_fuel_enough. lia. }
  rewrite Hloop. simpl.
  destruct (break_candidates p0 q0 p1 q1 n d Hinv Hbrk)
    as (HQ & Hdet & Hd & HE & Hd2 & Hd1 & Hfar).
  assert (Hq1 : 1 <= q1 <= M) by (destruct Hinv as (_ & _ & _ & _ & ? & _); assumption).
  destruct (Z.eqb_spec q1 0) as [H|_]; [lia|].
  set (k := (M - q0) / q1) in *.
  set (P := p0 + k * p1) in *. set (Q := q0 + k * q1) in *.
  assert (HgP : Z.gcd P Q = 1).
  { apply (det_coprime P Q (- p1) (- q1)). destruct Hdet as [H|H]; [left | right]; lia. }
  assert (Hg1 : Z.gcd p1 q1 = 1).
  { apply (det_coprime p1 q1 P Q). destruct Hdet as [H|H]; [left | right]; lia. }
  rewrite (Fraction_of_ints_coprime P Q) by (try lia; exact HgP). simpl.
  rewrite (Fraction_of_ints_coprime p1 q1) by (try lia; exact Hg1). simpl.
  destruct (Fraction_closer {| numerator := p1; denominator := q1 |}
              {| numerator := P; denominator := Q |}
              {| numerator := N; denominator := D |})
    as (d2 & d1 & -> & -> & Hcmp); simpl; try lia.
  simpl in Hcmp. rewrite Hd2, Hd1 in Hcmp.
  destruct (Fraction_le (Fraction_abs d2) (Fraction_abs d1)) eqn:Hle.
  - exists p1, q1. split; [reflexivity|]. split; [lia|]. split; [exact Hg1|].
    intros r s Hs. rewrite Hd2.
    assert (Hc : d * Q <= (n - k * d) * q1) by (apply Hcmp; reflexivity).
    destruct (Hfar r s Hs) as [H|H]; [|lia].
    apply (pick_closer d (n - k * d) Q q1 s (Z.abs (N * s - r * D))); try lia.
  - exists P, Q. split; [reflexivity|]. split; [lia|]. split; [exact HgP|].
    intros r s Hs. rewrite Hd1.
    assert (Hc : (n - k * d) * q1 <= d * Q).
    { destruct (Z_le_gt_dec (d * Q) ((n - k * d) * q1)) as [Hc|Hc]; [|lia].
      apply Hcmp in Hc. discriminate Hc. }
    destruct (Hfar r s Hs) as [H|H]; [lia|].
    apply (pick_closer (n - k * d) d q1 Q s (Z.abs (N * s - r * D))); try lia.
Qed.

End LimitDenominator.

(** [limit_denominator] on any fraction in lowest terms. *)
Lemma limit_denominator_closest (N D M : Z) :
  0 < D -> Z.gcd N D = 1 -> 1 <= M ->
  exists p q : Z,
    limit_denominator {| numerator := N; denominator := D |} M
      = OK {| numerator := p; denominator := q |} /\
    0 < q <= M /\
    Z.gcd p q = 1 /\
    forall r s : Z, 0 < s <= M ->
      Z.abs (N * q - p * D) * s <= Z.abs (N * s - r * D) * q.
Proof.
  intros HD Hg HM.
  destruct (Z_le_gt_dec D M) as [Hsmall|Hlarge].
  - exists N, D. unfold limit_denominator. simpl.
    destruct (Z.ltb_spec M 1) as [H|_]; [lia|].
    destruct (Z.leb_spec D M) as [_|H]; [|lia].
    split; [reflexivity|]. split; [lia|]. split; [exact Hg|].
    intros r s Hs. replace (N * D - N * D) with 0 by ring. simpl.
    pose proof (Z.abs_nonneg (N * s - r * D)). nia.
  - apply limit_denominator_large; lia.
Qed.

(** [as_integer_ratio] on a finite float: the exact value, in lowest terms. *)
Lemma as_integer_ratio_finite (f : spec_float) :
  is_finite f = true ->
  exists (n : Z) (d : positive),
    as_integer_ratio f = OK (n, Z.pos d) /\
    Z.gcd n (Z.pos d) = 1 /\
    (float_value f == n # d)%Q.
Proof.
  destruct f as [s|s| |s m e]; try discriminate; intros _.
  - exists 0, 1%positive. repeat split.
  - unfold as_integer_ratio, float_value.
    destruct (Z.leb_spec 0 e) as [He|He].
    + exists (cond_Zopp s (Z.pos m * 2 ^ e)), 1%positive.
      split; [reflexivity|]. split; [apply Z.gcd_1_r | reflexivity].
    + set (g := Z.gcd (Z.pos m) (2 ^ (- e))).
      assert (Hpow : 0 < 2 ^ (- e)) by (apply Z.pow_pos_nonneg; lia).
      assert (Hg : 0 < g).
      { pose proof (Z.gcd_nonneg (Z.pos m) (2 ^ (- e))) as H0. fold g in H0.
        destruct (Z.eq_dec g 0) as [Hz|]; [|lia].
        apply Z.gcd_eq_0_l in Hz. discriminate Hz. }
      destruct (Z.gcd_divide_l (Z.pos m) (2 ^ (- e))) as [m' Hm'].
      destruct (Z.gcd_divide_r (Z.pos m) (2 ^ (- e))) as [d' Hd'].
      fold g in Hm', Hd'.
      assert (Hmg : Z.pos m / g = m') by (rewrite Hm'; apply Z.div_mul; lia).
      assert (Hdg : 2 ^ (- e) / g = d') by (rewrite Hd'; apply Z.div_mul; lia).
      assert (Hd0 : 0 < d') by nia.
      assert (Hcop : Z.gcd m' d' = 1).
      { rewrite <- Hmg, <- Hdg. apply Z.gcd_div_gcd; [lia | reflexivity]. }
      exists (cond_Zopp s m'), (Z.to_pos d').
      rewrite Hmg, Hdg, Z2Pos.id by exact Hd0.
      split; [reflexivity|]. split.
      * destruct s; simpl; [rewrite Z.gcd_opp_l|]; exact Hcop.
      * unfold Qeq. simpl Qnum. simpl Qden.
        rewrite Z2Pos.id by exact Hd0.
        rewrite Pos2Z.inj_pow, Z2Pos.id by lia.
        change (Z.pos 2) with 2. rewrite Hd'.
        destruct s; simpl cond_Zopp; rewrite Hm'; ring.
Qed.

Lemma Qeq_Qle (a b : Q) : (a == b)%Q -> (a <= b)%Q.
Proof. unfold Qeq, Qle. lia. Qed.

Lemma Qabs_dist_le (N p r : Z) (D q s : positive) :
  Z.abs (N * Z.pos q - p * Z.pos D) * Z.pos s
    <= Z.abs (N * Z.pos s - r * Z.pos D) * Z.pos q ->
  (Qabs ((N # D) - (p # q)) <= Qabs ((N # D) - (r # s)))%Q.
Proof.
  intros H. unfold Qle, Qabs, Qminus, Qplus, Qopp. simpl.
  rewrite !Pos2Z.inj_mul.
  replace (N * Z.pos q + - p * Z.pos D) with (N * Z.pos q - p * Z.pos D) by ring.
  replace (N * Z.pos s + - r * Z.pos D) with (N * Z.pos s - r * Z.pos D) by ring.
  set (A := Z.abs (N * Z.pos q - p * Z.pos D)) in *.
  set (B := Z.abs (N * Z.pos s - r * Z.pos D)) in *.
  replace (A * (Z.pos D * Z.pos s)) with (Z.pos D * (A * Z.pos s)) by ring.
  replace (B * (Z.pos D * Z.pos q)) with (Z.pos D * (B * Z.pos q)) by ring.
  apply Z.mul_le_mono_nonneg_l; [lia | exact H].
Qed.

(** The fraction [Fraction(x)] of an int or a finite float: its exact
    value, in lowest terms. *)
Lemma Fraction_of_number_finite (x : number) :
  number_finite x = true ->
  exists (n : Z) (d : positive),
    Fraction_of_number x = OK {| numerator := n; denominator := Z.pos d |} /\
    Z.gcd n (Z.pos d) = 1 /\
    (number_value x == n # d)%Q.
Proof.
  destruct x as [z|f]; simpl; intros Hfin.
  - exists z, 1%positive. split; [reflexivity|]. split; [apply Z.gcd_1_r | reflexivity].
  - destruct (as_integer_ratio_finite f Hfin) as (n & d & -> & Hg & Hv).
    exists n, d. split; [reflexivity|]. split; assumption.
Qed.

(** [_rat] returns the closest fraction whose denominator is at most
    [max_den]: for every int or finite float [x] and every bound of at
    least one it returns, without raising, a pair [(p, q)] in lowest terms
    with [0 < q <= max_den], and no fraction [r / s] with
    [0 < s <= max_den] is closer to the exact value of [x]. *)
Theorem rat_closest (x : number) (max_den : Z) :
  number_finite x = true ->
  1 <= max_den ->
  exists p q : Z,
    _rat x max_den = OK (p, q) /\
    0 < q <= max_den /\
    Z.gcd p q = 1 /\
    forall r s : Z, 0 < s <= max_den ->
      (Qabs (number_value x - (p # Z.to_pos q))
         <= Qabs (number_value x - (r # Z.to_pos s)))%Q.
Proof.
  intros Hfin HM.
  destruct (Fraction_of_number_finite x Hfin) as (n & d & HF & Hg & Hv).
  destruct (limit_denominator_closest n (Z.pos d) max_den) as (p & q & HL & Hq & Hpq & Hbest);
    [lia | exact Hg | exact HM |].
  exists p, q. unfold _rat. rewrite HF. simpl. rewrite HL. simpl.
  split; [reflexivity|]. split; [exact Hq|]. split; [exact Hpq|].
  intros r s Hs.
  assert (E : forall c : Q, (Qabs (number_value x - c) == Qabs ((n # d) - c))%Q).
  { intros c. apply Qabs_wd. unfold Qminus. apply Qplus_comp; [exact Hv | apply Qeq_refl]. }
  apply Qle_trans with (Qabs ((n # d) - (p # Z.to_pos q))).
  { apply Qeq_Qle. exact (E (p # Z.to_pos q)). }
  apply Qle_trans with (Qabs ((n # d) - (r # Z.to_pos s))).
  { apply Qabs_dist_le. rewrite !Z2Pos.id by lia. apply Hbest. exact Hs. }
  apply Qeq_Qle. apply Qeq_sym. exact (E (r # Z.to_pos s)).
Qed.

Lemma rat_closest_witness :
  number_finite (PFloat Sample.lat_sydney) = true /\
  1 <= 1000 /\
  exists p q : Z,
    _rat (PFloat Sample.lat_sydney) 1000 = OK (p, q) /\
    0 < q <= 1000 /\
    Z.gcd p q = 1 /\
    forall r s : Z, 0 < s <= 1000 ->
      (Qabs (number_value (PFloat Sample.lat_sydney) - (p # Z.to_pos q))
         <= Qabs (number_value (PFloat Sample.lat_sydney) - (r # Z.to_pos s)))%Q.
Proof.
  split; [reflexivity|]. split; [lia|].
  apply (rat_closest (PFloat Sample.lat_sydney) 1000); [reflexivity | lia].
Defined.

(** ** The shape of the dictionary [make_exif] returns *)

Lemma setitem_0th (tag : Z) (v : exif_value) (a b c d e : gmap Z exif_value) :
  setitem "0th" tag v (exif_groups a b c d e) = exif_groups (<[tag := v]> a) b c d e.
Proof.
  unfold setitem, exif_groups. set (f := insert tag v). clearbody f.
  vm_compute. reflexivity.
Qed.

Lemma setitem_Exif (tag : Z) (v : exif_value) (a b c d e : gmap Z exif_value) :
  setitem "Exif" tag v (exif_groups a b c d e) = exif_groups a (<[tag := v]> b) c d e.
Proof.
  unfold setitem, exif_groups. set (f := insert tag v). clearbody f.
  vm_compute. reflexivity.
Qed.

Lemma setitem_GPS (tag : Z) (v : exif_value) (a b c d e : gmap Z exif_value) :
  setitem "GPS" tag v (exif_groups a b c d e) = exif_groups a b (<[tag := v]> c) d e.
Proof.
  unfold setitem, exif_groups. set (f := insert tag v). clearbody f.
  vm_compute. reflexivity.
Qed.

Lemma exif_groups_lookup_GPS (a b c d e : gmap Z exif_value) :
  exif_groups a b c d e !! "GPS" = Some c.
Proof. vm_compute. reflexivity. Qed.

Lemma exif_groups_lookup_0th (a b c d e : gmap Z exif_value) :
  exif_groups a b c d e !! "0th" = Some a.
Proof. vm_compute. reflexivity. Qed.

Lemma exif_groups_lookup_Exif (a b c d e : gmap Z exif_value) :
  exif_groups a b c d e !! "Exif" = Some b.
Proof. vm_compute. reflexivity. Qed.

Lemma exif_groups_size (a b c d e : gmap Z exif_value) :
  size (exif_groups a b c d e) = 5%nat.
Proof. vm_compute. reflexivity. Qed.

Lemma image_info_inserts (dt_str : string) :
  <[piexif.ImageIFD.DateTime := EStr dt_str]>
    (<[piexif.ImageIFD.Software := EStr "OpenSenseCam Script"]>
       (<[piexif.ImageIFD.Model := EStr "Camera Module 3"]>
          (<[piexif.ImageIFD.Make := EStr "Raspberry Pi"]>
             (<[piexif.ImageIFD.DateTime := EStr dt_str]> (∅ : gmap Z exif_value))))) =
  {[ piexif.ImageIFD.DateTime := EStr dt_str;
     piexif.ImageIFD.Make := EStr "Raspberry Pi";
     piexif.ImageIFD.Model := EStr "Camera Module 3";
     piexif.ImageIFD.Software := EStr "OpenSenseCam Script" ]}.
Proof. vm_compute. reflexivity. Qed.

Lemma exif_info_inserts (dt_str : string) :
  <[piexif.ExifIFD.UserComment := EBytes user_comment]>
    (<[piexif.ExifIFD.DateTimeDigitized := EStr dt_str]>
       (<[piexif.ExifIFD.DateTimeOriginal := EStr dt_str]> (∅ : gmap Z exif_value))) =
  {[ piexif.ExifIFD.DateTimeOriginal := EStr dt_str;
     piexif.ExifIFD.DateTimeDigitized := EStr dt_str;
     piexif.ExifIFD.UserComment := EBytes user_comment ]}.
Proof. vm_compute. reflexivity. Qed.

Lemma make_exif_base (now_local_dt : datetime) :
  let dt_str := strftime "%Y:%m:%d %H:%M:%S" now_local_dt in
  setitem "Exif" piexif.ExifIFD.UserComment (EBytes user_comment)
    (setitem "0th" piexif.ImageIFD.DateTime (EStr dt_str)
       (setitem "0th" piexif.ImageIFD.Software (EStr "OpenSenseCam Script")
          (setitem "0th" piexif.ImageIFD.Model (EStr "Camera Module 3")
             (setitem "0th" piexif.ImageIFD.Make (EStr "Raspberry Pi")
                (setitem "Exif" piexif.ExifIFD.DateTimeDigitized (EStr dt_str)
                   (setitem "Exif" piexif.ExifIFD.DateTimeOriginal (EStr dt_str)
                      (setitem "0th" piexif.ImageIFD.DateTime (EStr dt_str)
                         {[ "0th" := ∅; "Exif" := ∅; "GPS" := ∅; "1st" := ∅;
                            "Interop" := ∅ ]}))))))) =
  exif_groups (image_info now_local_dt) (exif_info now_local_dt) ∅ ∅ ∅.
Proof.
  intros dt_str. unfold image_info, exif_info. fold dt_str.
  change ({[ "0th" := ∅; "Exif" := ∅; "GPS" := ∅; "1st" := ∅; "Interop" := ∅ ]}
            : gmap string (gmap Z exif_value))
    with (exif_groups ∅ ∅ ∅ ∅ ∅).
  rewrite !setitem_0th, !setitem_Exif, !setitem_0th, !setitem_Exif.
  rewrite image_info_inserts, exif_info_inserts. reflexivity.
Qed.

(** What [make_exif] returns, when it returns: the image-info and Exif
    groups of the capture time, empty ["1st"] and ["Interop"] groups, and a
    positioning group that is empty without the receiver packages or
    without a latitude and is [position_group] of the receiver's values
    otherwise. *)
Lemma make_exif_OK_shape (g : globals) (w : world) (now_local_dt : datetime) (fix_ : pyobj)
    (exif : gmap string (gmap Z exif_value)) :
  outcome (make_exif g w now_local_dt fix_) = OK exif ->
  exists group : gmap Z exif_value,
    exif = exif_groups (image_info now_local_dt) (exif_info now_local_dt) group ∅ ∅ /\
    match GPS_AVAILABLE g, latitude (gps w) with
    | true, Some lat =>
        exists (lon : spec_float) (lat_dms lon_dms : (Z * Z) * (Z * Z) * (Z * Z))
               (alt : option (spec_float * (Z * Z))) (ts : struct_time),
          longitude (gps w) = Some lon /\
          _deg_to_dms (PFloat lat) = OK lat_dms /\
          _deg_to_dms (PFloat lon) = OK lon_dms /\
          match altitude_m (gps w), alt with
          | Some a, Some (a', r) => a' = a /\ _rat (py_abs (PFloat a)) 1000 = OK r
          | None, None => True
          | _, _ => False
          end /\
          timestamp_utc (gps w) = Some ts /\
          group = position_group lat lon lat_dms lon_dms alt
                    (strftime "%Y:%m:%d" (utc_now w)) ts
    | _, _ => group = ∅
    end.
Proof.
  unfold make_exif. intros H.
  destruct (EXIF_OK g); [|discriminate H]. simpl negb in H. cbv iota in H.
  rewrite (make_exif_base now_local_dt) in H.
  set (zeroth := image_info now_local_dt) in *. set (ex := exif_info now_local_dt) in *.
  clearbody zeroth ex.
  destruct (GPS_AVAILABLE g).
  2:{ apply outcome_ret_inv in H. subst exif. exists ∅. split; reflexivity. }
  destruct (latitude (gps w)) as [lat|].
  2:{ exists ∅. split; [|reflexivity].
      apply io_bind_outcome_OK_inv in H as ([] & _ & H).
      apply outcome_ret_inv in H. subst exif. reflexivity. }
  revert H.
  repeat match goal with
  | |- context [lift ?r ≫= _] =>
      rewrite (io_bind_lift r); destruct r eqn:?; [|intros H; discriminate H]
  end.
  rewrite !setitem_GPS.
  intros H. apply io_bind_outcome_OK_inv in H as (exif0 & H0 & H).
  rewrite io_bind_lift in H.
  destruct (timestamp_utc (gps w)) as [ts|]; [|discriminate H].
  rewrite rat_int, io_bind_lift, rat_int, io_bind_lift, rat_int, io_bind_lift in H.
  destruct (longitude (gps w)) as [lon|]; [|discriminate].
  match goal with Hlon : OK lon = OK _ |- _ => injection Hlon as <- end.
  destruct (altitude_m (gps w)) as [alt|].
  - rewrite !setitem_GPS, io_bind_lift in H0.
    destruct (_rat (py_abs (PFloat alt)) 1000) as [r|] eqn:Hr; [|discriminate H0].
    apply outcome_ret_inv in H0. subst exif0.
    rewrite !setitem_GPS in H. apply outcome_ret_inv in H. subst exif.
    eexists. split; [reflexivity|].
    eexists lon, _, _, (Some (alt, r)), ts. repeat split; try eassumption.
  - apply outcome_ret_inv in H0. subst exif0.
    rewrite !setitem_GPS in H. apply outcome_ret_inv in H. subst exif.
    eexists. split; [reflexivity|].
    eexists lon, _, _, None, ts. repeat split; try eassumption.
Qed.

(** Every dictionary [make_exif] returns has exactly the five groups of
    [piexif]; its image-info group and its Exif group are those of the
    capture time, whatever the receiver and the clock are, and its ["1st"]
    and ["Interop"] groups are empty. *)
Theorem make_exif_image_groups (g : globals) (w : world) (now_local_dt : datetime)
    (fix_ : pyobj) (exif : gmap string (gmap Z exif_value)) :
  outcome (make_exif g w now_local_dt fix_) = OK exif ->
  size exif = 5%nat /\
  exif !! "0th" = Some (image_info now_local_dt) /\
  exif !! "Exif" = Some (exif_info now_local_dt) /\
  exif !! "1st" = Some ∅ /\
  exif !! "Interop" = Some ∅.
Proof.
  intros H. destruct (make_exif_OK_shape g w now_local_dt fix_ exif H) as (group & -> & _).
  generalize (image_info now_local_dt) (exif_info now_local_dt). intros a b.
  split; [apply exif_groups_size|].
  split; [apply exif_groups_lookup_0th|].
  split; [apply exif_groups_lookup_Exif|].
  split; vm_compute; reflexivity.
Qed.

Lemma make_exif_image_groups_witness :
  exists exif : gmap string (gmap Z exif_value),
    outcome (make_exif Sample.g Sample.w_london Sample.now PyNone) = OK exif /\
    size exif = 5%nat /\
    exif !! "0th" = Some (image_info Sample.now) /\
    exif !! "Exif" = Some (exif_info Sample.now) /\
    exif !! "1st" = Some ∅ /\
    exif !! "Interop" = Some ∅.
Proof.
  assert (H : exists exif : gmap string (gmap Z exif_value),
            outcome (make_exif Sample.g Sample.w_london Sample.now PyNone) = OK exif)
    by (eexists; vm_compute; reflexivity).
  destruct H as [exif H]. exists exif. split; [exact H|].
  apply (make_exif_image_groups Sample.g Sample.w_london Sample.now PyNone exif H).
Defined.

Ltac tag_ne := let E := fresh in intros E; vm_compute in E; discriminate E.
Ltac tag_lookup :=
  rewrite ?lookup_insert_ne by tag_ne;
  first [apply lookup_insert_eq | apply lookup_empty].

(** In every dictionary [make_exif] returns with the receiver packages
    present and a latitude reported, the hemisphere letters follow the
    signs of the receiver's latitude and longitude (["N"] and ["E"] from
    zero up, ["S"] and ["W"] below), the two angles are their
    [_deg_to_dms] forms, and the altitude pair is written exactly when the
    receiver has an altitude: reference 0 from zero up and 1 below, value
    [_rat] of the absolute altitude with denominators up to 1000. *)
Theorem make_exif_position_fields (g : globals) (w : world) (now_local_dt : datetime)
    (fix_ : pyobj) (lat : spec_float) (exif : gmap string (gmap Z exif_value)) :
  outcome (make_exif g w now_local_dt fix_) = OK exif ->
  GPS_AVAILABLE g = true ->
  latitude (gps w) = Some lat ->
  let tag := gps_tag (make_exif g w now_local_dt fix_) in
  exists (lon : spec_float) (lat_dms lon_dms : (Z * Z) * (Z * Z) * (Z * Z)),
    longitude (gps w) = Some lon /\
    _deg_to_dms (PFloat lat) = OK lat_dms /\
    _deg_to_dms (PFloat lon) = OK lon_dms /\
    tag piexif.GPSIFD.GPSLatitudeRef = Some (EStr (if py_ge0 (PFloat lat) then "N" else "S")) /\
    tag piexif.GPSIFD.GPSLatitude = Some (ERational3 lat_dms) /\
    tag piexif.GPSIFD.GPSLongitudeRef = Some (EStr (if py_ge0 (PFloat lon) then "E" else "W")) /\
    tag piexif.GPSIFD.GPSLongitude = Some (ERational3 lon_dms) /\
    match altitude_m (gps w) with
    | None =>
        tag piexif.GPSIFD.GPSAltitudeRef = None /\ tag piexif.GPSIFD.GPSAltitude = None
    | Some alt =>
        tag piexif.GPSIFD.GPSAltitudeRef = Some (EInt (if py_ge0 (PFloat alt) then 0 else 1)) /\
        exists r : Z * Z,
          _rat (py_abs (PFloat alt)) 1000 = OK r /\
          tag piexif.GPSIFD.GPSAltitude = Some (ERational r)
    end.
Proof.
  intros H Hav Hlat tag. subst tag. unfold gps_tag. rewrite H.
  destruct (make_exif_OK_shape g w now_local_dt fix_ exif H) as (group & -> & Hgroup).
  rewrite Hav, Hlat in Hgroup.
  destruct Hgroup as (lon & lat_dms & lon_dms & alt & ts & Hlon & Hlatd & Hlond & Halt & Hts & ->).
  exists lon, lat_dms, lon_dms.
  split; [exact Hlon|]. split; [exact Hlatd|]. split; [exact Hlond|].
  rewrite exif_groups_lookup_GPS. simpl.
  generalize (strftime "%Y:%m:%d" (utc_now w)). intros date_stamp.
  unfold position_group.
  destruct (altitude_m (gps w)) as [a|], alt as [[a' r]|]; try contradiction.
  - destruct Halt as [-> Hr].
    repeat split; try (exists r; split; [exact Hr|]); tag_lookup.
  - repeat split; tag_lookup.
Qed.

Lemma make_exif_position_fields_witness :
  exists exif : gmap string (gmap Z exif_value),
    outcome (make_exif Sample.g Sample.w_sydney Sample.now PyNone) = OK exif /\
    GPS_AVAILABLE Sample.g = true /\
    latitude (gps Sample.w_sydney) = Some Sample.lat_sydney /\
    gps_tag (make_exif Sample.g Sample.w_sydney Sample.now PyNone)
      piexif.GPSIFD.GPSLatitudeRef = Some (EStr "S") /\
    gps_tag (make_exif Sample.g Sample.w_sydney Sample.now PyNone)
      piexif.GPSIFD.GPSAltitude = None.
Proof.
  assert (H : exists exif : gmap string (gmap Z exif_value),
            outcome (make_exif Sample.g Sample.w_sydney Sample.now PyNone) = OK exif)
    by (eexists; vm_compute; reflexivity).
  destruct H as [exif H]. exists exif.
  split; [exact H|]. split; [reflexivity|]. split; [reflexivity|].
  destruct (make_exif_position_fields Sample.g Sample.w_sydney Sample.now PyNone
              Sample.lat_sydney exif H eq_refl eq_refl)
    as (lon & lat_dms & lon_dms & _ & _ & _ & HlatRef & _ & _ & _ & _ & Halt).
  split; [exact HlatRef | exact Halt].
Defined.

(** ** Traces of the capture loop *)

Lemma trace_Forall_bind {A B : Type} (P : event -> Prop) (m : io A) (k : A -> io B) :
  Forall P (trace m) ->
  (forall a : A, outcome m = OK a -> Forall P (trace (k a))) ->
  Forall P (trace (m ≫= k)).
Proof.
  intros Hm Hk. rewrite io_bind_trace. apply Forall_app. split; [exact Hm|].
  destruct (outcome m) as [a|e]; [apply Hk; reflexivity | constructor].
Qed.

Lemma make_exif_trace_prints (P : event -> Prop) (g : globals) (w : world)
    (now_local_dt : datetime) (fix_ : pyobj) :
  (forall line : string, P (Print line)) ->
  Forall P (trace (make_exif g w now_local_dt fix_)).
Proof.
  intros HP. unfold make_exif.
  repeat first
    [ apply trace_Forall_bind; [|intros ? _]
    | match goal with
      | |- Forall _ (trace (lift _)) => constructor
      | |- Forall _ (trace (mret _)) => constructor
      | |- Forall _ (trace (print _)) => constructor; [apply HP | constructor]
      | |- Forall _ (trace (match ?x with _ => _ end)) => destruct x
      end ].
Qed.

Lemma iteration_trace_Forall (P : event -> Prop) (g : globals) (self : CameraPoller.t)
    (fix_ : pyobj) (c : CameraPoller.cycle) :
  (forall line : string, P (Print line)) ->
  P CaptureFile ->
  (forall (out_path : string) (exif : gmap string (gmap Z exif_value)),
     size exif = 5%nat -> P (SaveJPEG out_path (Some exif))) ->
  (forall (out_path : string) (exif : gmap string (gmap Z exif_value)),
     P (PrintSaved out_path exif)) ->
  Forall P (trace (CameraPoller.iteration g self fix_ c)).
Proof.
  intros Hprint Hcap Hsave Hsaved. unfold CameraPoller.iteration.
  destruct (_ && _); [|constructor; [apply Hprint | constructor]].
  apply trace_Forall_bind; [constructor; [apply Hprint | constructor]|]. intros _ _.
  apply trace_Forall_bind; [constructor; [apply Hcap | constructor]|]. intros _ _.
  apply trace_Forall_bind; [constructor|]. intros img_bytes _.
  apply trace_Forall_bind; [apply make_exif_trace_prints; exact Hprint|].
  intros exif_dict Hexif.
  apply make_exif_image_groups in Hexif. destruct Hexif as [Hsize _].
  rewrite Hsize. simpl negb. cbv iota.
  apply trace_Forall_bind.
  { apply trace_Forall_bind; [constructor | intros _ _; constructor]. }
  intros exif_bytes Hbytes.
  assert (Hb : exif_bytes = Some exif_dict).
  { destruct (CameraPoller.dumped c) as [[]|e]; [|discriminate Hbytes].
    injection Hbytes as <-. reflexivity. }
  subst exif_bytes.
  apply trace_Forall_bind; [constructor|]. intros _ _.
  apply trace_Forall_bind; [constructor; [apply Hsave; exact Hsize | constructor]|].
  intros _ _.
  apply trace_Forall_bind; [constructor|]. intros _ _.
  constructor; [apply Hsaved | constructor].
Qed.

Lemma run_loop_trace_Forall (P : event -> Prop) (g : globals) (self : CameraPoller.t)
    (cycles : list CameraPoller.cycle) :
  (forall line : string, P (Print line)) ->
  P CaptureFile ->
  (forall (out_path : string) (exif : gmap string (gmap Z exif_value)),
     size exif = 5%nat -> P (SaveJPEG out_path (Some exif))) ->
  (forall (out_path : string) (exif : gmap string (gmap Z exif_value)),
     P (PrintSaved out_path exif)) ->
  P (Wait (CameraPoller.interval self)) ->
  forall st : SharedState.t, Forall P (trace (CameraPoller.run_loop g self st cycles)).
Proof.
  intros Hprint Hcap Hsave Hsaved Hwait.
  induction cycles as [|c cycles IH]; intros st; [constructor|].
  cbn [CameraPoller.run_loop].
  apply trace_Forall_bind; [constructor|]. intros fix_ _.
  apply trace_Forall_bind; [apply iteration_trace_Forall; assumption|].
  intros _ _. destruct (event_wait (CameraPoller.interval self)).
  - constructor.
  - apply trace_Forall_bind; [constructor; [apply Hwait | constructor]|].
    intros _ _. apply IH.
  - constructor; [apply Hwait | constructor].
Qed.

(** The [else] branch of [if exif_bytes:] in [run] is never taken: every
    JPEG the loop saves carries an EXIF block, the five-group dictionary
    [make_exif] returned. *)
Theorem run_saves_with_exif (g : globals) (self : CameraPoller.t)
    (cycles : list CameraPoller.cycle) (out_path : string)
    (exif : option (gmap string (gmap Z exif_value))) :
  In (SaveJPEG out_path exif) (trace (CameraPoller.run g self cycles)) ->
  exists exif_dict : gmap string (gmap Z exif_value),
    exif = Some exif_dict /\ size exif_dict = 5%nat.
Proof.
  intros Hin.
  set (P := fun e : event =>
              match e with
              | SaveJPEG _ None => False
              | SaveJPEG _ (Some d) => size d = 5%nat
              | _ => True
              end).
  assert (HP : Forall P (trace (CameraPoller.run g self cycles))).
  { unfold CameraPoller.run.
    assert (Hloop : Forall P (trace (CameraPoller.run_loop g self
                                       (CameraPoller.state self) cycles)))
      by (apply run_loop_trace_Forall; intros; simpl; auto).
    destruct (bool_decide _); simpl; [|exact Hloop].
    apply Forall_app. split; [exact Hloop|]. repeat constructor. }
  rewrite Forall_forall in HP. apply list_elem_of_In in Hin.
  specialize (HP _ Hin). simpl in HP.
  destruct exif as [d|]; [exists d; split; [reflexivity | exact HP] | contradiction].
Qed.

Lemma run_saves_with_exif_witness :
  exists (out_path : string) (exif : option (gmap string (gmap Z exif_value))),
    In (SaveJPEG out_path exif)
       (trace (CameraPoller.run Sample.g Sample.camera [Sample.cycle3])) /\
    exists exif_dict : gmap string (gmap Z exif_value),
      exif = Some exif_dict /\ size exif_dict = 5%nat.
Proof.
  assert (H : exists (out_path : string) (exif : option (gmap string (gmap Z exif_value))),
            In (SaveJPEG out_path exif)
               (trace (CameraPoller.run Sample.g Sample.camera [Sample.cycle3]))).
  { eexists _, _. vm_compute. right. right. left. reflexivity. }
  destruct H as (out_path & exif & H). exists out_path, exif. split; [exact H|].
  apply (run_saves_with_exif Sample.g Sample.camera [Sample.cycle3] out_path exif H).
Defined.

(** The [finally] clause of [run]: with a camera handle the trace ends with
    the one and only [close], whether the loop ended by the stop event or
    by an exception; without a handle nothing is closed. *)
Theorem run_closes_camera_once (g : globals) (self : CameraPoller.t)
    (cycles : list CameraPoller.cycle) :
  exists tr : list event,
    ~ In Close tr /\
    trace (CameraPoller.run g self cycles) =
      tr ++ match CameraPoller._pc2 self with Some _ => [Close] | None => [] end.
Proof.
  exists (trace (CameraPoller.run_loop g self (CameraPoller.state self) cycles)).
  split.
  - assert (H : Forall (fun e => e <> Close)
                  (trace (CameraPoller.run_loop g self (CameraPoller.state self) cycles)))
      by (apply run_loop_trace_Forall; intros; discriminate).
    rewrite Forall_forall in H. intros Hin. apply list_elem_of_In in Hin.
    exact (H _ Hin eq_refl).
  - unfold CameraPoller.run. destruct (CameraPoller._pc2 self) as [[]|]; simpl.
    + reflexivity.
    + symmetry. apply app_nil_r.
Qed.

Lemma io_bind_OK {A B : Type} (m : io A) (k : A -> io B) (a : A) :
  outcome m = OK a -> m ≫= k = IO (trace m ++ trace (k a)) (outcome (k a)).
Proof. intros H. unfold mbind, io_bind. rewrite H. reflexivity. Qed.

Lemma io_bind_Raise {A B : Type} (m : io A) (k : A -> io B) (e : exn) :
  outcome m = Raise e -> m ≫= k = IO (trace m) (Raise e).
Proof. intros H. unfold mbind, io_bind. rewrite H. reflexivity. Qed.

Lemma io_eta {A : Type} (m : io A) : IO (trace m) (outcome m) = m.
Proof. destruct m. reflexivity. Qed.

(** With an interval the wait accepts, the loop over [pre ++ rest] is the
    loop over [pre], if that completes, and then the loop over [rest]. *)
Lemma run_loop_app (g : globals) (self : CameraPoller.t)
    (pre rest : list CameraPoller.cycle) :
  event_wait (CameraPoller.interval self) = WaitTimeout ->
  forall st : SharedState.t,
    outcome (CameraPoller.run_loop g self st pre) = OK tt ->
    CameraPoller.run_loop g self st (pre ++ rest) =
    IO (trace (CameraPoller.run_loop g self st pre)
          ++ trace (CameraPoller.run_loop g self (registry_after st pre) rest))
       (outcome (CameraPoller.run_loop g self (registry_after st pre) rest)).
Proof.
  intros Hwait. induction pre as [|c pre IH]; intros st Hpre.
  - simpl. symmetry. apply io_eta.
  - revert Hpre. cbn [CameraPoller.run_loop app registry_after fold_left].
    set (st' := SharedState.publish_all st (CameraPoller.published c)).
    fold (registry_after st' pre).
    destruct (get_fix_total st') as [o Ho]. rewrite Ho, !io_bind_lift, Hwait.
    destruct (outcome (CameraPoller.iteration g self o c)) as [[]|e] eqn:Hit.
    + rewrite !(io_bind_OK _ _ tt Hit), !io_bind_emit. cbn [trace outcome].
      intros Hpre. rewrite (IH st' Hpre). cbn [trace outcome].
      rewrite <- !app_assoc. reflexivity.
    + rewrite (io_bind_Raise _ _ e Hit). intros Hpre. discriminate Hpre.
Qed.

(** Nothing in [run] catches an exception of the loop.  With an interval
    the wait accepts and the iterations [pre] completed, an iteration [c]
    that raises [e] (its capture, [make_exif], [piexif.dump], [Image.open]
    or [im.save] does) makes [run] raise [e]: the trace is the one of the
    iterations before, then the events of [c] up to the failure, then the
    [close] of the [finally] clause.  Nothing is awaited after [c], and
    the iterations [rest] never start. *)
Theorem run_raise_ends_loop (g : globals) (self : CameraPoller.t)
    (pre rest : list CameraPoller.cycle) (c : CameraPoller.cycle) (fix_ : pyobj) (e : exn) :
  event_wait (CameraPoller.interval self) = WaitTimeout ->
  outcome (CameraPoller.run_loop g self (CameraPoller.state self) pre) = OK tt ->
  outcome (CameraPoller.iteration g self fix_ c) = Raise e ->
  CameraPoller.run g self (pre ++ c :: rest) =
  IO (trace (CameraPoller.run_loop g self (CameraPoller.state self) pre)
        ++ trace (CameraPoller.iteration g self fix_ c)
        ++ match CameraPoller._pc2 self with Some _ => [Close] | None => [] end)
     (Raise e).
Proof.
  intros Hwait Hpre Hit. unfold CameraPoller.run.
  rewrite (run_loop_app g self pre (c :: rest) Hwait _ Hpre).
  cbn [CameraPoller.run_loop].
  set (st' := SharedState.publish_all _ (CameraPoller.published c)).
  destruct (get_fix_total st') as [o Ho]. rewrite Ho, io_bind_lift.
  change (CameraPoller.iteration g self o c) with (CameraPoller.iteration g self fix_ c).
  rewrite (io_bind_Raise _ _ e Hit). cbn [trace outcome].
  destruct (CameraPoller._pc2 self) as [[]|]; simpl.
  - rewrite <- app_assoc. reflexivity.
  - rewrite app_nil_r. reflexivity.
Qed.

Lemma run_raise_ends_loop_witness :
  event_wait (CameraPoller.interval Sample.camera) = WaitTimeout /\
  outcome (CameraPoller.run_loop Sample.g Sample.camera
             (CameraPoller.state Sample.camera) [Sample.cycle3]) = OK tt /\
  outcome (CameraPoller.iteration Sample.g Sample.camera PyNone Sample2.cycle_capture_fails)
    = Raise RuntimeError /\
  CameraPoller.run Sample.g Sample.camera
    ([Sample.cycle3] ++ Sample2.cycle_capture_fails :: [Sample.cycle3]) =
  IO (trace (CameraPoller.run_loop Sample.g Sample.camera
               (CameraPoller.state Sample.camera) [Sample.cycle3])
        ++ trace (CameraPoller.iteration Sample.g Sample.camera PyNone
                    Sample2.cycle_capture_fails)
        ++ match CameraPoller._pc2 Sample.camera with Some _ => [Close] | None => [] end)
     (Raise RuntimeError).
Proof.
  split; [reflexivity|]. split; [vm_compute; reflexivity|].
  split; [vm_compute; reflexivity|].
  apply (run_raise_ends_loop Sample.g Sample.camera [Sample.cycle3] [Sample.cycle3]
           Sample2.cycle_capture_fails PyNone RuntimeError);
    [reflexivity | vm_compute; reflexivity | vm_compute; reflexivity].
Defined.

Lemma deg_to_dms_OK_finite (f : spec_float) (dms : (Z * Z) * (Z * Z) * (Z * Z)) :
  _deg_to_dms (PFloat f) = OK dms -> is_finite f = true.
Proof.
  unfold _deg_to_dms. destruct f as [s|s| |s m e]; simpl; try discriminate; reflexivity.
Qed.

Lemma rat_OK_finite (x : number) (max_den : Z) (r : Z * Z) :
  _rat x max_den = OK r -> number_finite x = true.
Proof.
  unfold _rat. destruct x as [z|f]; [reflexivity|].
  destruct f as [s|s| |s m e]; simpl; try discriminate; reflexivity.
Qed.

(** [make_exif] returns only under these conditions: [piexif] was
    imported, and, when the receiver packages are present and the receiver
    reports a latitude, the latitude is finite, a finite longitude and a
    timestamp are reported too, and the altitude, if any, is finite.
    In every other case it raises. *)
Theorem make_exif_returns_only_if (g : globals) (w : world) (now_local_dt : datetime)
    (fix_ : pyobj) (exif : gmap string (gmap Z exif_value)) :
  outcome (make_exif g w now_local_dt fix_) = OK exif ->
  EXIF_OK g = true /\
  (GPS_AVAILABLE g = true ->
   forall lat : spec_float, latitude (gps w) = Some lat ->
     is_finite lat = true /\
     (exists lon : spec_float, longitude (gps w) = Some lon /\ is_finite lon = true) /\
     (exists ts : struct_time, timestamp_utc (gps w) = Some ts) /\
     (forall alt : spec_float, altitude_m (gps w) = Some alt -> is_finite alt = true)).
Proof.
  intros H. split.
  - unfold make_exif in H. destruct (EXIF_OK g); [reflexivity | discriminate H].
  - intros Hav lat Hlat.
    destruct (make_exif_OK_shape g w now_local_dt fix_ exif H) as (group & _ & Hgroup).
    rewrite Hav, Hlat in Hgroup.
    destruct Hgroup as (lon & lat_dms & lon_dms & alt & ts & Hlon & Hlatd & Hlond & Halt & Hts & _).
    split; [exact (deg_to_dms_OK_finite lat lat_dms Hlatd)|].
    split; [exists lon; split; [exact Hlon | exact (deg_to_dms_OK_finite lon lon_dms Hlond)]|].
    split; [exists ts; exact Hts|].
    intros a Ha. rewrite Ha in Halt. destruct alt as [[a' r]|]; [|contradiction].
    destruct Halt as [_ Hr]. apply rat_OK_finite in Hr. simpl in Hr.
    destruct a; simpl in Hr; try discriminate; reflexivity.
Qed.

Lemma make_exif_returns_only_if_witness :
  exists exif : gmap string (gmap Z exif_value),
    outcome (make_exif Sample.g Sample.w_sydney Sample.now PyNone) = OK exif /\
    EXIF_OK Sample.g = true /\
    (GPS_AVAILABLE Sample.g = true ->
     forall lat : spec_float, latitude (gps Sample.w_sydney) = Some lat ->
       is_finite lat = true /\
       (exists lon : spec_float,
          longitude (gps Sample.w_sydney) = Some lon /\ is_finite lon = true) /\
       (exists ts : struct_time, timestamp_utc (gps Sample.w_sydney) = Some ts) /\
       (forall alt : spec_float,
          altitude_m (gps Sample.w_sydney) = Some alt -> is_finite alt = true)).
Proof.
  assert (H : exists exif : gmap string (gmap Z exif_value),
            outcome (make_exif Sample.g Sample.w_sydney Sample.now PyNone) = OK exif)
    by (eexists; vm_compute; reflexivity).
  destruct H as [exif H]. exists exif. split; [exact H|].
  apply (make_exif_returns_only_if Sample.g Sample.w_sydney Sample.now PyNone exif H).
Defined.

(** ** The capture loop and the fix registry *)

Lemma run_loop_ignores_registry (g : globals) (self self' : CameraPoller.t)
    (cycles : list CameraPoller.cycle) :
  CameraPoller.interval self' = CameraPoller.interval self ->
  CameraPoller._pc2 self' = CameraPoller._pc2 self ->
  forall st st' : SharedState.t,
    CameraPoller.run_loop g self st cycles =
    CameraPoller.run_loop g self' st' (map without_published cycles).
Proof.
  intros Hiv Hpc2.
  assert (Hit : forall o o' c,
             CameraPoller.iteration g self o c =
             CameraPoller.iteration g self' o' (without_published c)).
  { intros o o' c. unfold CameraPoller.iteration. rewrite Hpc2. reflexivity. }
  induction cycles as [|c cycles IH]; intros st st'; [reflexivity|].
  cbn [CameraPoller.run_loop map].
  destruct (get_fix_total (SharedState.publish_all st (CameraPoller.published c)))
    as [o Ho].
  destruct (get_fix_total (SharedState.publish_all st'
                             (CameraPoller.published (without_published c))))
    as [o' Ho'].
  rewrite Ho, Ho', !io_bind_lift, (Hit o o' c), Hiv.
  destruct (event_wait (CameraPoller.interval self)); [reflexivity| |reflexivity].
  rewrite (IH (SharedState.publish_all st (CameraPoller.published c))
              (SharedState.publish_all st' (CameraPoller.published (without_published c)))).
  reflexivity.
Qed.

(** What [run] does, its events with the EXIF dictionaries it saves and
    its outcome, does not depend on the fix registry: whatever the
    registry holds at the start and whatever other threads publish between
    the iterations, the run is the one on an empty registry with nothing
    published.  Each iteration passes its snapshot of the registry to
    [make_exif], which does not read it, and taking the snapshot never
    raises. *)
Theorem run_ignores_registry (g : globals) (self : CameraPoller.t)
    (cycles : list CameraPoller.cycle) :
  CameraPoller.run g self cycles =
  CameraPoller.run g (on_empty_registry self) (map without_published cycles).
Proof.
  unfold CameraPoller.run.
  rewrite (run_loop_ignores_registry g self (on_empty_registry self) cycles
             eq_refl eq_refl (CameraPoller.state self)
             (CameraPoller.state (on_empty_registry self))).
  reflexivity.
Qed.

(** ** Configuration and [main] *)

(** The module reads its settings without raising exactly when the
    configuration file is missing or unreadable, where it takes
    [DEFAULT_CONFIG], or holds a JSON object; a file that holds any other
    JSON value makes [cfg.get] raise [AttributeError].  A key missing from
    the object takes the default of its [cfg.get] call; for ["interval"]
    that is the string ["10"], where [DEFAULT_CONFIG] has the int 10. *)
Theorem read_settings_cases (file : config_file) :
  match file with
  | FileNotFound | OtherFailure =>
      read_settings file =
      OK {| Settings.folder := JStr "/var/lib/opensensecam";
            Settings.mode := JStr "mode_a";
            Settings.note := JStr "";
            Settings.interval := JInt 10;
            Settings.camera_mode := JNone |}
  | Loaded (JDict d) =>
      read_settings file =
      OK {| Settings.folder := default (JStr "/var/lib/opensensecam") (d !! "folder");
            Settings.mode := default (JStr "mode_a") (d !! "mode");
            Settings.note := default (JStr "") (d !! "note");
            Settings.interval := default (JStr "10") (d !! "interval");
            Settings.camera_mode := default JNone (d !! "camera_mode") |}
  | Loaded _ => read_settings file = Raise AttributeError
  end.
Proof.
  destruct file as [| |v]; [vm_compute; reflexivity ..|].
  destruct v; reflexivity.
Qed.

(** With [Picamera2] present, [main] raises [AttributeError] whenever the
    [camera_mode] setting is not a JSON object, as with [DEFAULT_CONFIG]
    (a missing or unreadable configuration file), where it is [None]: the
    resolution is read with [camera_mode.get].  It raises before it
    constructs the camera poller and before it starts any thread. *)
Theorem main_without_camera_mode (g : globals) (s : Settings.t) (sleeps : nat)
    (cam_ended : bool) :
  PICAMERA2 g = true ->
  (forall d : gmap string jval, Settings.camera_mode s <> JDict d) ->
  snd (main g s sleeps cam_ended) = Raise AttributeError /\
  fst (main g s sleeps cam_ended) =
    (if GPS_AVAILABLE g then [NewGPSPoller] else [MPrint "GPS unavailable."]).
Proof.
  intros Hcam Hmode. unfold main. rewrite Hcam. simpl negb. cbv iota.
  destruct (Settings.camera_mode s) as [| | | | | |d]; simpl; try (split; reflexivity).
  contradiction (Hmode d). reflexivity.
Qed.

Lemma main_without_camera_mode_witness :
  exists s : Settings.t,
    read_settings FileNotFound = OK s /\
    PICAMERA2 Sample.g = true /\
    (forall d : gmap string jval, Settings.camera_mode s <> JDict d) /\
    snd (main Sample.g s 3 true) = Raise AttributeError /\
    fst (main Sample.g s 3 true) =
      (if GPS_AVAILABLE Sample.g then [NewGPSPoller] else [MPrint "GPS unavailable."]).
Proof.
  eexists. split; [vm_compute; reflexivity|]. split; [reflexivity|].
  assert (H : forall d : gmap string jval, JNone <> JDict d) by (intros d; discriminate).
  split; [exact H|].
  apply (main_without_camera_mode Sample.g _ 3 true); [reflexivity | exact H].
Defined.

(** [main] stops and joins, with a timeout of two seconds, exactly the
    threads it started: the camera thread whenever it got as far as
    starting threads, and the GPS thread only with the receiver packages
    present. *)
Theorem main_joins_what_it_starts (g : globals) (s : Settings.t) (sleeps : nat)
    (cam_ended : bool) (th : thread) :
  (In (Start th) (fst (main g s sleeps cam_ended))
   <-> In (Join th 2) (fst (main g s sleeps cam_ended))) /\
  (In (Start th) (fst (main g s sleeps cam_ended))
   <-> In (Stop th) (fst (main g s sleeps cam_ended))) /\
  (In (Start gps_thread) (fst (main g s sleeps cam_ended)) -> GPS_AVAILABLE g = true).
Proof.
  assert (Hsleep : forall e : main_event, In e (repeat (Sleep 1) sleeps) -> e = Sleep 1)
    by (intros e He; exact (repeat_spec _ _ _ He)).
  unfold main.
  destruct (PICAMERA2 g); simpl negb; cbv iota.
  2:{ simpl. intuition discriminate. }
  destruct (dict_get (Settings.camera_mode s) "width" JNone) as [w|e].
  2:{ destruct (GPS_AVAILABLE g); simpl; intuition discriminate. }
  destruct (dict_get (Settings.camera_mode s) "height" JNone) as [h|e].
  2:{ destruct (GPS_AVAILABLE g); simpl; intuition discriminate. }
  destruct (GPS_AVAILABLE g), th; simpl fst;
    repeat (rewrite ?in_app_iff; simpl);
    repeat split; intros H;
    repeat match goal with
           | H : _ \/ _ |- _ => destruct H as [H|H]
           | H : In _ (repeat _ _) |- _ => apply Hsleep in H
           | H : False |- _ => contradiction
           end;
    first [discriminate | reflexivity | intuition congruence].
Qed.


(** ** Binary64 arithmetic in [_deg_to_dms], on the definitions of [SpecFloat] *)

Lemma digits2_pos_bounds (p : positive) :
  2 ^ (Z.pos (digits2_pos p) - 1) <= Z.pos p < 2 ^ Z.pos (digits2_pos p).
Proof.
  induction p as [p IH|p IH|]; simpl digits2_pos.
  - rewrite Pos2Z.inj_succ.
    replace (Z.succ (Z.pos (digits2_pos p)) - 1) with (Z.succ (Z.pos (digits2_pos p) - 1)) by lia.
    rewrite !Z.pow_succ_r by lia. lia.
  - rewrite Pos2Z.inj_succ.
    replace (Z.succ (Z.pos (digits2_pos p)) - 1) with (Z.succ (Z.pos (digits2_pos p) - 1)) by lia.
    rewrite !Z.pow_succ_r by lia. lia.
  - simpl. lia.
Qed.

Lemma iter_pos_nat {A : Type} (f : A -> A) (p : positive) (x : A) :
  SpecFloat.iter_pos f p x = Nat.iter (Pos.to_nat p) f x.
Proof.
  revert x. induction p as [p IH|p IH|]; intros x; simpl SpecFloat.iter_pos.
  - rewrite !IH, Pos2Nat.inj_xI.
    replace (S (2 * Pos.to_nat p)) with (Pos.to_nat p + S (Pos.to_nat p))%nat by lia.
    rewrite Nat.iter_add, Nat.iter_succ_r. reflexivity.
  - rewrite !IH, Pos2Nat.inj_xO.
    replace (2 * Pos.to_nat p)%nat with (Pos.to_nat p + Pos.to_nat p)%nat by lia.
    rewrite Nat.iter_add. reflexivity.
  - reflexivity.
Qed.

(** One right shift keeps the quotient, the round bit and the sticky bit. *)
Lemma shr_1_nonneg (m : Z) (r s : bool) :
  0 <= m ->
  shr_1 {| shr_m := m; shr_r := r; shr_s := s |} =
  {| shr_m := m / 2; shr_r := Z.odd m; shr_s := r || s |}.
Proof.
  intros Hm. destruct m as [|p|p]; [reflexivity | | lia].
  destruct p as [p|p|]; simpl shr_1.
  - f_equal. rewrite Pos2Z.inj_xI. symmetry.
    rewrite Z.add_comm, Z.mul_comm, Z.div_add by lia. reflexivity.
  - f_equal. rewrite Pos2Z.inj_xO. symmetry.
    rewrite Z.mul_comm, Z.div_mul by lia. reflexivity.
  - reflexivity.
Qed.

Lemma shr_inv_step (m k : Z) (mrs : shr_record) :
  0 <= k -> shr_inv m k mrs -> shr_inv m (k + 1) (shr_1 mrs).
Proof.
  intros Hk (rem & Hm & Hrem & Hq & Hr & Hs).
  destruct mrs as [q r s]. simpl in Hm, Hrem, Hq, Hr, Hs.
  rewrite shr_1_nonneg by exact Hq.
  pose proof (Z.pow_pos_nonneg 2 k ltac:(lia) Hk) as Hpow.
  pose proof (Z.div_mod q 2 ltac:(lia)) as Hdm.
  pose proof (Z.mod_pos_bound q 2 ltac:(lia)) as Hmod.
  assert (Hodd : Z.odd q = true <-> q mod 2 = 1).
  { rewrite Zmod_odd. destruct (Z.odd q); split; intros; try lia; try discriminate; reflexivity. }
  exists (q mod 2 * 2 ^ k + rem). simpl.
  rewrite Z.pow_add_r, Z.pow_1_r by lia.
  assert (Hrs : r || s = true <-> rem <> 0).
  { destruct r, s; simpl; intuition (try lia; try discriminate). }
  repeat split.
  - nia.
  - nia.
  - nia.
  - apply Z.div_pos; lia.
  - intros H. apply Hodd in H. nia.
  - intros H. apply Hodd. nia.
  - intros H. apply Hrs in H. destruct (Z.odd q) eqn:Ho.
    + assert (q mod 2 = 1) by (apply Hodd; reflexivity). nia.
    + assert (q mod 2 = 0).
      { destruct (Z.eq_dec (q mod 2) 0); [assumption|].
        assert (q mod 2 = 1) by lia. apply Hodd in H0. discriminate. }
      nia.
  - intros H. apply Hrs. destruct (Z.odd q) eqn:Ho.
    + assert (q mod 2 = 1) by (apply Hodd; reflexivity). nia.
    + assert (q mod 2 = 0).
      { destruct (Z.eq_dec (q mod 2) 0); [assumption|].
        assert (q mod 2 = 1) by lia. apply Hodd in H0. discriminate. }
      nia.
Qed.

Lemma shr_iter (m : Z) (k : nat) :
  0 <= m ->
  shr_inv m (Z.of_nat k) (Nat.iter k shr_1 {| shr_m := m; shr_r := false; shr_s := false |}).
Proof.
  intros Hm. induction k as [|k IH].
  - exists 0. simpl. repeat split; try lia; intros H; try discriminate H; lia.
  - rewrite Nat2Z.inj_succ. unfold Z.succ. simpl Nat.iter.
    apply shr_inv_step; [lia | exact IH].
Qed.

Lemma round_of_shr (m k : Z) (mrs : shr_record) :
  0 <= k -> shr_inv m k mrs ->
  round_nearest_even (shr_m mrs) (loc_of_shr_record mrs) = rne_shift m k.
Proof.
  intros Hk (rem & Hm & Hrem & Hq & Hr & Hs).
  pose proof (Z.pow_pos_nonneg 2 k ltac:(lia) Hk) as Hpow.
  assert (Hdiv : m / 2 ^ k = shr_m mrs)
    by (symmetry; apply (Z.div_unique_pos m (2 ^ k) (shr_m mrs) rem); lia).
  assert (Hmod : m mod 2 ^ k = rem)
    by (symmetry; apply (Z.mod_unique_pos m (2 ^ k) (shr_m mrs) rem); lia).
  unfold rne_shift. rewrite Hdiv, Hmod.
  destruct mrs as [q r s]. simpl in *.
  destruct r, s; simpl.
  - assert (2 ^ k <= 2 * rem) by (apply Hr; reflexivity).
    assert (2 * rem <> 2 ^ k) by (apply Hs; reflexivity).
    destruct (Z.ltb_spec (2 * rem) (2 ^ k)); [lia|].
    destruct (Z.eqb_spec (2 * rem) (2 ^ k)); [lia|]. reflexivity.
  - assert (2 ^ k <= 2 * rem) by (apply Hr; reflexivity).
    assert (2 * rem = 2 ^ k).
    { destruct (Z.eq_dec (2 * rem) (2 ^ k)); [assumption|].
      assert (false = true) by (apply Hs; assumption). discriminate. }
    destruct (Z.ltb_spec (2 * rem) (2 ^ k)); [lia|].
    destruct (Z.eqb_spec (2 * rem) (2 ^ k)); [|lia]. reflexivity.
  - assert (2 * rem < 2 ^ k).
    { destruct (Z_lt_le_dec (2 * rem) (2 ^ k)); [assumption|].
      assert (false = true) by (apply Hr; assumption). discriminate. }
    destruct (Z.ltb_spec (2 * rem) (2 ^ k)); [reflexivity | lia].
  - assert (2 * rem < 2 ^ k).
    { destruct (Z_lt_le_dec (2 * rem) (2 ^ k)); [assumption|].
      assert (false = true) by (apply Hr; assumption). discriminate. }
    destruct (Z.ltb_spec (2 * rem) (2 ^ k)); [reflexivity | lia].
Qed.

(** [shr] of an exact mantissa by [n > 0] bits, then rounding. *)
Lemma shr_round (m : Z) (e n : Z) :
  0 <= m -> 0 < n ->
  let '(mrs, e') := shr {| shr_m := m; shr_r := false; shr_s := false |} e n in
  e' = e + n /\ round_nearest_even (shr_m mrs) (loc_of_shr_record mrs) = rne_shift m n.
Proof.
  intros Hm Hn. destruct n as [|p|p]; try lia. simpl shr.
  split; [reflexivity|].
  rewrite iter_pos_nat.
  apply round_of_shr; [lia|].
  rewrite <- (positive_nat_Z p). apply shr_iter. exact Hm.
Qed.

Lemma rne_shift_bounds (m k : Z) :
  0 <= m -> 0 <= k ->
  m / 2 ^ k <= rne_shift m k <= m / 2 ^ k + 1 /\
  (m mod 2 ^ k = 0 -> rne_shift m k = m / 2 ^ k) /\
  2 * Z.abs (rne_shift m k * 2 ^ k - m) <= 2 ^ k.
Proof.
  intros Hm Hk. unfold rne_shift.
  pose proof (Z.pow_pos_nonneg 2 k ltac:(lia) Hk) as Hpow.
  pose proof (Z.div_mod m (2 ^ k) ltac:(lia)) as Hdm.
  pose proof (Z.mod_pos_bound m (2 ^ k) Hpow) as Hmod.
  set (q := m / 2 ^ k) in *. set (rem := m mod 2 ^ k) in *.
  destruct (Z.ltb_spec (2 * rem) (2 ^ k)).
  - repeat split; try lia.
  - destruct (Z.eqb_spec (2 * rem) (2 ^ k)).
    + destruct (Z.even q); repeat split; try lia.
    + repeat split; try lia.
Qed.

Lemma shr_fexp_no_shift (m e : Z) :
  fexp prec emax (Zdigits2 m + e) - e <= 0 ->
  shr_fexp prec emax m e loc_Exact =
  ({| shr_m := m; shr_r := false; shr_s := false |}, e).
Proof.
  intros Hn. unfold shr_fexp. simpl shr_record_of_loc.
  destruct (fexp prec emax (Zdigits2 m + e) - e) as [|p|p]; try reflexivity. lia.
Qed.

Lemma binary_round_aux_model (s : bool) (mx : positive) (ex : Z) :
  binary_round_aux prec emax s (Z.pos mx) ex loc_Exact = round_model s mx ex.
Proof.
  unfold binary_round_aux, round_model.
  set (n := fexp prec emax (Z.pos (digits2_pos mx) + ex) - ex).
  destruct (Z.leb_spec n 0) as [Hn|Hn].
  - rewrite shr_fexp_no_shift by exact Hn. simpl round_nearest_even.
    rewrite shr_fexp_no_shift by exact Hn. reflexivity.
  - unfold shr_fexp at 1. simpl shr_record_of_loc. simpl Zdigits2. fold n.
    pose proof (shr_round (Z.pos mx) ex n ltac:(lia) Hn) as Hshr.
    destruct (shr {| shr_m := Z.pos mx; shr_r := false; shr_s := false |} ex n) as [mrs e'].
    destruct Hshr as [-> Hround]. rewrite Hround.
    pose proof (rne_shift_bounds (Z.pos mx) n ltac:(lia) ltac:(lia)) as (Hb & _ & _).
    pose proof (digits2_pos_bounds mx) as Hd.
    assert (He1 : -1074 <= ex + n).
    { unfold n, fexp, emin, prec, emax. lia. }
    assert (Hq : Z.pos mx / 2 ^ n < 2 ^ 53).
    { apply Z.div_lt_upper_bound; [apply Z.pow_pos_nonneg; lia|].
      rewrite <- Z.pow_add_r by lia.
      eapply Z.lt_le_trans; [apply Hd|].
      apply Z.pow_le_mono_r; [lia|]. unfold n, fexp, emin, prec, emax. lia. }
    assert (Hq0 : 0 <= Z.pos mx / 2 ^ n)
      by (apply Z.div_pos; [lia | apply Z.pow_pos_nonneg; lia]).
    destruct (rne_shift (Z.pos mx) n) as [|p|p] eqn:Hm1.
    + rewrite shr_fexp_no_shift; [reflexivity|].
      simpl Zdigits2. unfold fexp, emin, prec, emax. lia.
    + destruct (Z.eqb_spec (Z.pos p) (2 ^ prec)) as [Hp|Hp].
      * assert (Hp' : p = Z.to_pos (2 ^ 53)) by (unfold prec in Hp; lia).
        subst p. unfold shr_fexp.
        replace (fexp prec emax (Zdigits2 (Z.pos (Z.to_pos (2 ^ 53))) + (ex + n)) - (ex + n))
          with 1.
        2:{ change (Zdigits2 (Z.pos (Z.to_pos (2 ^ 53)))) with 54.
            unfold fexp, emin, prec, emax. lia. }
        simpl. replace (ex + n + 1 <=? emax - prec) with (ex + n + 1 <=? 971) by reflexivity.
        reflexivity.
      * assert (Hlt : Z.pos p < 2 ^ 53) by (unfold prec in Hp; lia).
        rewrite shr_fexp_no_shift; [reflexivity|].
        simpl Zdigits2. pose proof (digits2_pos_bounds p) as Hdp.
        assert (Z.pos (digits2_pos p) <= 53).
        { destruct (Z_le_gt_dec (Z.pos (digits2_pos p)) 53); [assumption|].
          assert (2 ^ 53 <= 2 ^ (Z.pos (digits2_pos p) - 1))
            by (apply Z.pow_le_mono_r; lia). lia. }
        unfold fexp, emin, prec, emax. lia.
    + lia.
Qed.

Lemma pow2_pos (a : Z) : 0 <= a -> 0 < 2 ^ a.
Proof. intros H. apply Z.pow_pos_nonneg; lia. Qed.

Lemma pow2_lt_inv (a b : Z) : 0 <= b -> 2 ^ a < 2 ^ b -> a < b.
Proof. intros Hb H. apply (Z.pow_lt_mono_r_iff 2); [lia | exact Hb | exact H]. Qed.

Lemma pow2_le (a b : Z) : 0 <= a <= b -> 2 ^ a <= 2 ^ b.
Proof. intros H. apply Z.pow_le_mono_r; lia. Qed.

Lemma pow2_mul_cancel (x y a : Z) : 0 <= a -> x * 2 ^ a = y * 2 ^ a -> x = y.
Proof.
  intros Ha H. pose proof (pow2_pos a Ha).
  apply (Z.mul_cancel_r x y (2 ^ a)); [lia | exact H].
Qed.

Lemma iter_xO_value (p k : positive) : Z.pos (Pos.iter xO p k) = Z.pos p * 2 ^ Z.pos k.
Proof.
  change (Pos.iter xO p k) with (shift_pos k p).
  rewrite shift_pos_correct, Z.pow_pos_fold. ring.
Qed.

Lemma digits2_pos_unique (p : positive) (a : Z) :
  2 ^ (a - 1) <= Z.pos p < 2 ^ a -> Z.pos (digits2_pos p) = a.
Proof.
  intros Ha. pose proof (digits2_pos_bounds p) as Hd.
  set (d := Z.pos (digits2_pos p)) in *.
  assert (Hd1 : 1 <= d) by (unfold d; lia).
  assert (Ha1 : 1 <= a).
  { destruct (Z_le_gt_dec 1 a); [assumption|].
    assert (2 ^ a <= 2 ^ 0) by (destruct (Z_le_gt_dec 0 a);
      [apply pow2_le; lia | rewrite Z.pow_neg_r by lia; simpl; lia]).
    simpl in H. lia. }
  assert (d - 1 < a) by (apply pow2_lt_inv; lia).
  assert (a - 1 < d) by (apply pow2_lt_inv; lia).
  lia.
Qed.

(** Rounding a value that a binary64 float can hold gives that value. *)
Lemma binary_round_exact (mz : positive) (ez : Z) :
  -1200 <= ez ->
  representable (Z.pos mz * 2 ^ (ez + 1200)) ->
  exists (m' : positive) (e' : Z),
    binary_round prec emax false mz ez = S754_finite false m' e' /\
    -1074 <= e' <= 971 /\ Z.pos m' < 2 ^ 53 /\
    Z.pos m' * 2 ^ (e' + 1200) = Z.pos mz * 2 ^ (ez + 1200).
Proof.
  intros Hez (m & e & Hm & He & Hv).
  pose proof (digits2_pos_bounds mz) as Hd.
  set (d := Z.pos (digits2_pos mz)) in *.
  assert (Hd1 : 1 <= d) by (unfold d; lia).
  set (t := fexp prec emax (d + ez)).
  assert (Ht : t = Z.max (d + ez - 53) (-1074)) by reflexivity.
  (* the magnitude of the value tells that the target exponent is at most [e] *)
  assert (Hmag : d + ez <= 53 + e).
  { assert (H1 : 2 ^ (d - 1) * 2 ^ (ez + 1200) <= Z.pos mz * 2 ^ (ez + 1200))
      by (apply Z.mul_le_mono_nonneg_r; [apply Z.lt_le_incl, pow2_pos|]; lia).
    assert (H2 : m * 2 ^ (e + 1200) < 2 ^ 53 * 2 ^ (e + 1200))
      by (apply Z.mul_lt_mono_pos_r; [apply pow2_pos|]; lia).
    rewrite <- Z.pow_add_r in H1, H2 by lia.
    assert (d - 1 + (ez + 1200) < 53 + (e + 1200)) by (apply pow2_lt_inv; lia).
    lia. }
  assert (Hte : -1074 <= t <= e) by lia.
  unfold binary_round. fold d. fold t.
  unfold shl_align.
  destruct (t - ez) as [|k|k] eqn:Hk.
  - (* aligned already, no shift *)
    rewrite binary_round_aux_model. unfold round_model. fold d.
    replace (fexp prec emax (d + ez) - ez) with 0 by (fold t; lia).
    simpl Z.leb. replace (ez <=? emax - prec) with true
      by (symmetry; apply Z.leb_le; unfold emax, prec; lia).
    exists mz, ez. split; [reflexivity|]. split; [lia|]. split; [|reflexivity].
    eapply Z.lt_le_trans; [apply Hd|]. apply pow2_le. lia.
  - (* the mantissa is too long: the shift drops zero bits only *)
    rewrite binary_round_aux_model. unfold round_model. fold d.
    replace (fexp prec emax (d + ez) - ez) with (Z.pos k) by (fold t; lia).
    simpl Z.leb.
    assert (Hmz : Z.pos mz = m * 2 ^ (e - t) * 2 ^ Z.pos k).
    { apply (pow2_mul_cancel _ _ (ez + 1200)); [lia|]. rewrite Hv.
      rewrite <- !Z.mul_assoc, <- !Z.pow_add_r by lia. f_equal. f_equal. lia. }
    set (m1 := m * 2 ^ (e - t)) in *.
    assert (Hm1 : 0 < m1) by (unfold m1; pose proof (pow2_pos (e - t)); nia).
    pose proof (pow2_pos (Z.pos k) ltac:(lia)) as Hpk.
    assert (Hr : rne_shift (Z.pos mz) (Z.pos k) = m1).
    { pose proof (rne_shift_bounds (Z.pos mz) (Z.pos k) ltac:(lia) ltac:(lia)) as (_ & Hex & _).
      rewrite Hex; rewrite Hmz.
      - apply Z.div_mul. lia.
      - apply Z.mod_mul. lia. }
    rewrite Hr.
    assert (Hm1lt : m1 < 2 ^ 53).
    { assert (m1 * 2 ^ Z.pos k < 2 ^ 53 * 2 ^ Z.pos k); [|nia].
      rewrite <- Hmz, <- Z.pow_add_r by lia.
      eapply Z.lt_le_trans; [apply Hd|]. apply pow2_le. lia. }
    destruct m1 as [|p|p] eqn:Hp; try lia.
    destruct (Z.eqb_spec (Z.pos p) (2 ^ prec)) as [Heq|_]; [unfold prec in Heq; lia|].
    replace (ez + Z.pos k <=? emax - prec) with true
      by (symmetry; apply Z.leb_le; unfold emax, prec; lia).
    exists p, (ez + Z.pos k). split; [reflexivity|]. split; [lia|]. split; [lia|].
    rewrite Hmz. rewrite <- !Z.mul_assoc, <- !Z.pow_add_r by lia. f_equal. f_equal. lia.
  - (* the mantissa is short: shift left first *)
    rewrite binary_round_aux_model. unfold round_model.
    assert (Hval : Z.pos (Pos.iter xO mz k) = Z.pos mz * 2 ^ Z.pos k) by apply iter_xO_value.
    pose proof (pow2_pos (Z.pos k) ltac:(lia)) as Hpk.
    assert (Hdig : Z.pos (digits2_pos (Pos.iter xO mz k)) = d + Z.pos k).
    { apply digits2_pos_unique. rewrite Hval.
      replace (d + Z.pos k - 1) with (d - 1 + Z.pos k) by lia.
      rewrite !Z.pow_add_r by lia. nia. }
    rewrite Hdig.
    replace (fexp prec emax (d + Z.pos k + t) - t) with 0.
    2:{ replace (d + Z.pos k + t) with (d + ez) by lia. fold t. lia. }
    simpl Z.leb. replace (t <=? emax - prec) with true
      by (symmetry; apply Z.leb_le; unfold emax, prec; lia).
    exists (Pos.iter xO mz k), t. split; [reflexivity|]. split; [lia|]. split.
    + rewrite Hval.
      assert (Z.pos mz * 2 ^ Z.pos k < 2 ^ d * 2 ^ Z.pos k) by nia.
      rewrite <- Z.pow_add_r in H by lia.
      eapply Z.lt_le_trans; [exact H|]. apply pow2_le. lia.
    + rewrite Hval, <- Z.mul_assoc, <- Z.pow_add_r by lia. f_equal. f_equal. lia.
Qed.

Lemma good_scaled_nonneg (f : spec_float) : good f -> 0 <= scaled f.
Proof.
  intros [->|(m & e & -> & He & Hm)]; simpl; [lia|].
  pose proof (pow2_pos (e + 1200) ltac:(lia)). nia.
Qed.

(** [int(f)] is the integer part of the value. *)
Lemma int_of_float_scaled (f : spec_float) :
  good f -> int_of_float f = OK (scaled f / 2 ^ 1200).
Proof.
  intros [->|(m & e & -> & He & Hm)]; [reflexivity|].
  unfold int_of_float, scaled. simpl cond_Zopp. f_equal.
  destruct (Z.leb_spec 0 e) as [H0|H0].
  - replace (e + 1200) with (e + 1200 - 1200 + 1200) by lia.
    rewrite (Z.pow_add_r 2 (e + 1200 - 1200) 1200) by lia.
    rewrite Z.mul_assoc, Z.div_mul by (pose proof (pow2_pos 1200); lia).
    f_equal. f_equal. lia.
  - replace (2 ^ 1200) with (2 ^ (- e) * 2 ^ (e + 1200))
      by (rewrite <- Z.pow_add_r by lia; f_equal; lia).
    rewrite Z.div_mul_cancel_r; [reflexivity | |];
      [pose proof (pow2_pos (- e)) | pose proof (pow2_pos (e + 1200))]; lia.
Qed.

(** The integer part and the fractional part of a float are values of
    floats, or zero. *)
Lemma good_parts (f : spec_float) :
  good f ->
  let d := scaled f / 2 ^ 1200 in
  let r := scaled f mod 2 ^ 1200 in
  0 <= d /\ (d = 0 \/ representable (d * 2 ^ 1200)) /\
  0 <= r < 2 ^ 1200 /\ (r = 0 \/ representable r) /\
  scaled f = d * 2 ^ 1200 + r.
Proof.
  intros Hg d r. pose proof (good_scaled_nonneg f Hg) as Hnn.
  pose proof (pow2_pos 1200 ltac:(lia)) as HS.
  pose proof (Z.div_mod (scaled f) (2 ^ 1200) ltac:(lia)) as Hdm.
  pose proof (Z.mod_pos_bound (scaled f) (2 ^ 1200) HS) as Hmod.
  fold d r in Hdm, Hmod.
  assert (Hd0 : 0 <= d) by (apply Z.div_pos; lia).
  split; [exact Hd0|].
  destruct Hg as [->|(m & e & -> & He & Hm)].
  - assert (Hd : d = 0) by (unfold d; change (scaled (S754_zero false)) with 0; apply Z.div_0_l; lia).
    assert (Hr : r = 0) by (unfold r; change (scaled (S754_zero false)) with 0; apply Z.mod_0_l; lia).
    split; [left; exact Hd|]. split; [lia|]. split; [left; exact Hr|].
    change (scaled (S754_zero false)) with 0. lia.
  - assert (Hsc : scaled (S754_finite false m e) = Z.pos m * 2 ^ (e + 1200)) by reflexivity.
    destruct (Z_le_gt_dec 0 e) as [H0|H0].
    + assert (Hd : d = Z.pos m * 2 ^ e).
      { unfold d. rewrite Hsc. replace (e + 1200) with (e + 1200 - 1200 + 1200) by lia.
        rewrite (Z.pow_add_r 2 (e + 1200 - 1200) 1200) by lia.
        rewrite Z.mul_assoc, Z.div_mul by lia. f_equal. f_equal. lia. }
      assert (Hr : r = 0).
      { unfold r. rewrite Hsc. replace (e + 1200) with (e + 1200 - 1200 + 1200) by lia.
        rewrite (Z.pow_add_r 2 (e + 1200 - 1200) 1200) by lia.
        rewrite Z.mul_assoc. apply Z.mod_mul. lia. }
      split.
      * right. exists (Z.pos m), e. split; [lia|]. split; [lia|].
        rewrite Hd, <- Z.mul_assoc, <- Z.pow_add_r by lia. reflexivity.
      * split; [lia|]. split; [left; exact Hr | lia].
    + pose proof (pow2_pos (- e) ltac:(lia)) as Hpe.
      pose proof (pow2_pos (e + 1200) ltac:(lia)) as Hpe'.
      assert (HS' : 2 ^ 1200 = 2 ^ (- e) * 2 ^ (e + 1200))
        by (rewrite <- Z.pow_add_r by lia; f_equal; lia).
      assert (Hd : d = Z.pos m / 2 ^ (- e)).
      { unfold d. rewrite Hsc, HS'. apply Z.div_mul_cancel_r; lia. }
      assert (Hr : r = Z.pos m mod 2 ^ (- e) * 2 ^ (e + 1200)).
      { unfold r. rewrite Hsc, HS'. apply Z.mul_mod_distr_r; lia. }
      pose proof (Z.mod_pos_bound (Z.pos m) (2 ^ (- e)) Hpe) as Hmm.
      pose proof (Z.div_mod (Z.pos m) (2 ^ (- e)) ltac:(lia)) as Hdm'.
      assert (Hdle : d <= Z.pos m).
      { rewrite Hd. apply Z.div_le_upper_bound; [lia|]. nia. }
      split.
      * destruct (Z.eq_dec d 0) as [Hz|Hnz]; [left; exact Hz|].
        right. exists d, 0. split; [lia|]. split; [lia|]. reflexivity.
      * split; [lia|]. split; [|lia].
        destruct (Z.eq_dec (Z.pos m mod 2 ^ (- e)) 0) as [Hz|Hnz].
        -- left. rewrite Hr, Hz. reflexivity.
        -- right. exists (Z.pos m mod 2 ^ (- e)), e. split; [|split; [lia | exact Hr]].
           assert (Z.pos m mod 2 ^ (- e) <= Z.pos m) by (apply Z.mod_le; lia). lia.
Qed.

(** [float(z)] of an int whose value a float can hold. *)
Lemma float_of_int_exact (z : Z) :
  0 <= z -> z = 0 \/ representable (z * 2 ^ 1200) ->
  exists f : spec_float,
    float_of_int z = OK f /\ good f /\ scaled f = z * 2 ^ 1200.
Proof.
  intros Hz Hrep. unfold float_of_int.
  destruct z as [|p|p]; [| |lia].
  - exists (S754_zero false). repeat split. left. reflexivity.
  - destruct Hrep as [H|Hrep]; [discriminate H|].
    simpl binary_normalize.
    destruct (binary_round_exact p 0 ltac:(lia) Hrep) as (m' & e' & -> & He' & Hm' & Hv).
    exists (S754_finite false m' e'). split; [reflexivity|]. split.
    + right. exists m', e'. auto.
    + simpl. exact Hv.
Qed.

Lemma shl_align_value (mx : positive) (ex ez : Z) :
  ez <= ex -> Z.pos (fst (shl_align mx ex ez)) = Z.pos mx * 2 ^ (ex - ez).
Proof.
  intros H. unfold shl_align.
  destruct (ez - ex) as [|k|k] eqn:Hk; simpl fst.
  - replace (ex - ez) with 0 by lia. simpl. lia.
  - lia.
  - rewrite iter_xO_value. f_equal. f_equal. lia.
Qed.

(** A subtraction whose result a float can hold is exact. *)
Lemma SFsub_exact (x y : spec_float) :
  good x -> good y ->
  scaled x - scaled y = 0 \/ representable (scaled x - scaled y) ->
  exists z : spec_float,
    SFsub prec emax x y = z /\ good z /\ scaled z = scaled x - scaled y.
Proof.
  intros Hx Hy Hrep.
  assert (Hxy : scaled y <= scaled x).
  { destruct Hrep as [H|(m & e & Hm & He & Hv)]; [lia|].
    pose proof (pow2_pos (e + 1200) ltac:(lia)). nia. }
  pose proof (good_scaled_nonneg y Hy) as Hy0.
  destruct Hx as [->|(mx & ex & -> & Hex & Hmx)], Hy as [->|(my & ey & -> & Hey & Hmy)].
  - exists (S754_zero false). repeat split. left. reflexivity.
  - exfalso. simpl in Hxy. pose proof (pow2_pos (ey + 1200) ltac:(lia)). nia.
  - exists (S754_finite false mx ex). split; [reflexivity|]. split.
    + right. exists mx, ex. auto.
    + simpl. lia.
  - simpl SFsub. simpl cond_Zopp.
    set (ez := Z.min ex ey).
    rewrite !shl_align_value by (unfold ez; lia).
    set (D := Z.pos mx * 2 ^ (ex - ez) - Z.pos my * 2 ^ (ey - ez)).
    assert (HD : D * 2 ^ (ez + 1200) =
                 scaled (S754_finite false mx ex) - scaled (S754_finite false my ey)).
    { unfold D. simpl. rewrite Z.mul_sub_distr_r.
      rewrite <- !Z.mul_assoc, <- !Z.pow_add_r by (unfold ez; lia).
      f_equal; f_equal; f_equal; lia. }
    pose proof (pow2_pos (ez + 1200) ltac:(unfold ez; lia)) as Hp.
    destruct D as [|p|p] eqn:HDp.
    + exists (S754_zero false). split; [reflexivity|]. split; [left; reflexivity|].
      rewrite <- HD. reflexivity.
    + simpl binary_normalize.
      destruct Hrep as [H0|Hrep]; [rewrite <- HD in H0; lia|].
      rewrite <- HD in Hrep.
      destruct (binary_round_exact p ez ltac:(unfold ez; lia) Hrep)
        as (m' & e' & -> & He' & Hm' & Hv).
      exists (S754_finite false m' e'). split; [reflexivity|]. split.
      * right. exists m', e'. auto.
      * rewrite <- HD. exact Hv.
    + exfalso. assert (Z.neg p * 2 ^ (ez + 1200) < 0) by nia. lia.
Qed.

(** Rounding a positive value below [2^(E+53)]: the result is a float of
    binary64 and its error is at most half a unit of the exponent [E]. *)
Lemma round_model_error (mx : positive) (ex E : Z) :
  -1200 <= ex <= 971 ->
  -1074 <= E <= 970 ->
  Z.pos (digits2_pos mx) + ex - 53 <= E ->
  good (round_model false mx ex) /\
  2 * Z.abs (scaled (round_model false mx ex) - Z.pos mx * 2 ^ (ex + 1200))
    <= 2 ^ (E + 1200).
Proof.
  intros Hex HE Hd. unfold round_model.
  pose proof (digits2_pos_bounds mx) as Hdig.
  set (d := Z.pos (digits2_pos mx)) in *.
  set (n := fexp prec emax (d + ex) - ex).
  assert (Hn : n = Z.max (d + ex - 53) (-1074) - ex) by reflexivity.
  pose proof (pow2_pos (E + 1200) ltac:(lia)) as HpE.
  destruct (Z.leb_spec n 0) as [Hn0|Hn0].
  - replace (ex <=? emax - prec) with true
      by (symmetry; apply Z.leb_le; unfold emax, prec; lia).
    split.
    + right. exists mx, ex. split; [reflexivity|]. split; [lia|].
      eapply Z.lt_le_trans; [apply Hdig|]. apply pow2_le. lia.
    + simpl scaled. rewrite Z.sub_diag. simpl Z.abs. lia.
  - pose proof (rne_shift_bounds (Z.pos mx) n ltac:(lia) ltac:(lia)) as (Hb & _ & Herr).
    pose proof (pow2_pos n ltac:(lia)) as Hpn.
    assert (Hq : Z.pos mx / 2 ^ n < 2 ^ 53).
    { apply Z.div_lt_upper_bound; [lia|].
      rewrite <- Z.pow_add_r by lia.
      eapply Z.lt_le_trans; [apply Hdig|]. apply pow2_le. lia. }
    assert (Hq0 : 0 <= Z.pos mx / 2 ^ n) by (apply Z.div_pos; lia).
    set (m1 := rne_shift (Z.pos mx) n) in *.
    assert (He1 : -1074 <= ex + n <= E) by lia.
    (* the error of the rounded mantissa, at the scale of the values *)
    assert (Hval : 2 * Z.abs (m1 * 2 ^ (ex + n + 1200) - Z.pos mx * 2 ^ (ex + 1200))
                   <= 2 ^ (E + 1200)).
    { replace (ex + n + 1200) with (n + (ex + 1200)) by lia.
      rewrite Z.pow_add_r, Z.mul_assoc, <- Z.mul_sub_distr_r by lia.
      pose proof (pow2_pos (ex + 1200) ltac:(lia)) as Hpe.
      rewrite Z.abs_mul, (Z.abs_eq (2 ^ (ex + 1200))) by lia.
      apply Z.le_trans with (2 ^ n * 2 ^ (ex + 1200)).
      - rewrite Z.mul_assoc. apply Z.mul_le_mono_nonneg_r; [lia | exact Herr].
      - rewrite <- Z.pow_add_r by lia. apply pow2_le. lia. }
    destruct m1 as [|p|p] eqn:Hm1; [| |lia].
    + split; [left; reflexivity|]. exact Hval.
    + destruct (Z.eqb_spec (Z.pos p) (2 ^ prec)) as [Hp|Hp].
      * replace (ex + n + 1 <=? emax - prec) with true
          by (symmetry; apply Z.leb_le; unfold emax, prec; lia).
        split.
        -- right. exists (Z.to_pos (2 ^ (prec - 1))), (ex + n + 1).
           split; [reflexivity|]. split; [lia|]. reflexivity.
        -- assert (Hs : scaled (S754_finite false (Z.to_pos (2 ^ (prec - 1))) (ex + n + 1))
                        = Z.pos p * 2 ^ (ex + n + 1200)).
           { unfold scaled, cond_Zopp.
             change (Z.pos (Z.to_pos (2 ^ (prec - 1)))) with (2 ^ 52).
             rewrite Hp. unfold prec. rewrite <- !Z.pow_add_r by lia. f_equal. lia. }
           rewrite Hs. exact Hval.
      * replace (ex + n <=? emax - prec) with true
          by (symmetry; apply Z.leb_le; unfold emax, prec; lia).
        split.
        -- right. exists p, (ex + n). split; [reflexivity|]. split; [lia|].
           unfold prec in Hp. lia.
        -- exact Hval.
Qed.

Lemma float_of_int_60 : float_of_int 60 = OK float_60.
Proof. reflexivity. Qed.

(** [r * 60.0] for a float [0 <= r < 1]: a float below 60, at most
    [2^-48] from the exact product. *)
Lemma SFmul_60 (r : spec_float) :
  good r -> scaled r < 2 ^ 1200 ->
  good (SFmul prec emax r float_60) /\
  0 <= scaled (SFmul prec emax r float_60) < 60 * 2 ^ 1200 /\
  Z.abs (scaled (SFmul prec emax r float_60) - 60 * scaled r) <= 2 ^ 1152.
Proof.
  intros Hg Hlt. pose proof (pow2_pos 1200 ltac:(lia)) as HS.
  assert (H52 : 2 ^ 1200 = 2 ^ 48 * 2 ^ 1152) by (rewrite <- Z.pow_add_r by lia; reflexivity).
  pose proof (pow2_pos 1152 ltac:(lia)) as H1152.
  destruct Hg as [->|(m & e & -> & He & Hm)].
  - simpl SFmul. simpl scaled. split; [left; reflexivity|]. split; [lia|]. simpl. lia.
  - unfold float_60. simpl SFmul. rewrite binary_round_aux_model.
    simpl scaled in Hlt.
    set (P := (m * 8444249301319680)%positive).
    assert (HP : Z.pos P = Z.pos m * (60 * 2 ^ 47)) by (unfold P; rewrite Pos2Z.inj_mul; reflexivity).
    assert (He0 : e <= 0).
    { destruct (Z_le_gt_dec e 0); [assumption|].
      assert (2 ^ 1200 <= 2 ^ (e + 1200)) by (apply pow2_le; lia). nia. }
    pose proof (pow2_pos (e + 1200) ltac:(lia)) as Hpe.
    assert (Hexact : Z.pos P * 2 ^ (e + -47 + 1200) = 60 * (Z.pos m * 2 ^ (e + 1200))).
    { rewrite HP. replace (e + 1200) with (47 + (e + -47 + 1200)) by lia.
      rewrite (Z.pow_add_r 2 47) by lia. ring. }
    pose proof (digits2_pos_bounds P) as Hdig.
    assert (Hd : Z.pos (digits2_pos P) + (e + -47) - 53 <= -47).
    { assert (H1 : 2 ^ (Z.pos (digits2_pos P) - 1) * 2 ^ (e + -47 + 1200)
                   <= Z.pos P * 2 ^ (e + -47 + 1200)).
      { apply Z.mul_le_mono_nonneg_r; [apply Z.lt_le_incl, pow2_pos|]; lia. }
      rewrite <- Z.pow_add_r in H1 by lia.
      assert (H2 : 2 ^ (Z.pos (digits2_pos P) - 1 + (e + -47 + 1200)) < 2 ^ 1206).
      { replace (2 ^ 1206) with (64 * 2 ^ 1200) by reflexivity.
        lia. }
      apply pow2_lt_inv in H2; lia. }
    destruct (round_model_error P (e + -47) (-47) ltac:(lia) ltac:(lia) Hd) as (Hgood & Herr).
    change (-47 + 1200) with 1153 in Herr.
    replace (2 ^ 1153) with (2 * 2 ^ 1152) in Herr by reflexivity.
    rewrite Hexact in Herr.
    set (y := round_model false P (e + -47)) in *.
    change (scaled (S754_finite false m e)) with (Z.pos m * 2 ^ (e + 1200)).
    split; [exact Hgood|]. split; [|lia].
    split; [apply good_scaled_nonneg, Hgood|].
    (* strictly below 60 *)
    destruct (Z_le_gt_dec (-53) e) as [Hbig|Hsmall].
    + (* the value is a multiple of [2^e], so at least [2^e] short of one *)
      assert (Hm1 : Z.pos m + 1 <= 2 ^ (- e)).
      { assert (Z.pos m * 2 ^ (e + 1200) < 2 ^ (- e) * 2 ^ (e + 1200))
          by (rewrite <- Z.pow_add_r by lia; replace (- e + (e + 1200)) with 1200 by lia; lia).
        assert (Z.pos m < 2 ^ (- e)) by nia. lia. }
      assert (Hgap : Z.pos m * 2 ^ (e + 1200) + 2 ^ (e + 1200) <= 2 ^ 1200).
      { replace (2 ^ 1200) with (2 ^ (- e) * 2 ^ (e + 1200))
          by (rewrite <- Z.pow_add_r by lia; f_equal; lia). nia. }
      assert (H1147 : 2 ^ 1147 <= 2 ^ (e + 1200)) by (apply pow2_le; lia).
      assert (H5 : 2 ^ 1152 = 32 * 2 ^ 1147) by reflexivity.
      lia.
    + (* a value below one half *)
      assert (Z.pos m * 2 ^ (e + 1200) < 2 ^ 53 * 2 ^ (e + 1200)) by nia.
      assert (2 ^ 53 * 2 ^ (e + 1200) <= 2 ^ 1199)
        by (rewrite <- Z.pow_add_r by lia; apply pow2_le; lia).
      assert (2 ^ 1200 = 2 * 2 ^ 1199) by reflexivity.
      lia.
Qed.

(** A finite float of binary64, without its sign. *)
Lemma valid_good (x : spec_float) :
  is_finite x = true -> valid_binary prec emax x = true -> good (SFabs x).
Proof.
  destruct x as [s|s| |s m e]; simpl; intros Hf Hv; try discriminate.
  - left. reflexivity.
  - right. exists m, e. split; [reflexivity|].
    unfold bounded, canonical_mantissa in Hv.
    apply andb_prop in Hv as [Hc Hb].
    apply Z.eqb_eq in Hc. apply Z.leb_le in Hb.
    assert (Hc' : Z.max (Z.pos (digits2_pos m) + e - 53) (-1074) = e) by exact Hc.
    unfold emax, prec in Hb. split; [lia|].
    pose proof (digits2_pos_bounds m) as Hd.
    eapply Z.lt_le_trans; [apply Hd|]. apply pow2_le. lia.
Qed.

Lemma result_bind_OK {A B : Type} (v : A) (k : A -> result B) : (OK v ≫= k) = k v.
Proof. reflexivity. Qed.

(** [x - float(k)] for the integer part [k] of a float [x >= 0]: the
    fractional part, exactly. *)
Lemma py_sub_int_part (a : spec_float) :
  good a ->
  exists r : spec_float,
    py_sub (PFloat a) (PInt (scaled a / 2 ^ 1200)) = OK (PFloat r) /\
    good r /\ scaled r = scaled a mod 2 ^ 1200.
Proof.
  intros Hg.
  destruct (good_parts a Hg) as (Hd0 & Hdrep & Hr & Hrrep & Hsplit).
  destruct (float_of_int_exact _ Hd0 Hdrep) as (g & Hfg & Hgg & Hsg).
  assert (Hdiff : scaled a - scaled g = scaled a mod 2 ^ 1200) by lia.
  destruct (SFsub_exact a g Hg Hgg) as (r & Hsub & Hgr & Hsr).
  { rewrite Hdiff. exact Hrrep. }
  exists r. unfold py_sub. rewrite Hfg. simpl. rewrite Hsub.
  split; [reflexivity|]. split; [exact Hgr | lia].
Qed.

(** The three steps of [_deg_to_dms] before the fractions: the degrees
    [d], the minutes [m] and the float [s] of the seconds. *)
Lemma deg_to_dms_chain (x : spec_float) :
  is_finite x = true -> valid_binary prec emax x = true ->
  exists (d m : Z) (s : spec_float),
    _deg_to_dms (PFloat x)
      = (rs ← _rat (PFloat s) max_den_default; OK ((d, 1), (m, 1), rs)) /\
    good s /\
    d = scaled (SFabs x) / 2 ^ 1200 /\ 0 <= d /\ 0 <= m <= 59 /\
    0 <= scaled s < 60 * 2 ^ 1200 /\
    Z.abs (3600 * scaled (SFabs x) - (3600 * d + 60 * m) * 2 ^ 1200 - scaled s)
      <= 61 * 2 ^ 1152.
Proof.
  intros Hf Hv. pose proof (valid_good x Hf Hv) as Hg.
  set (a := SFabs x) in *.
  pose proof (pow2_pos 1200 ltac:(lia)) as HS.
  destruct (good_parts a Hg) as (Hd0 & _ & Hr1 & _ & Hsplit1).
  destruct (py_sub_int_part a Hg) as (r1 & Hsub1 & Hgr1 & Hsr1).
  destruct (SFmul_60 r1 Hgr1 ltac:(lia)) as (Hgy & Hy & Herr1).
  set (y := SFmul prec emax r1 float_60) in *.
  destruct (good_parts y Hgy) as (Hm0 & _ & Hr2 & _ & Hsplit2).
  destruct (py_sub_int_part y Hgy) as (r2 & Hsub2 & Hgr2 & Hsr2).
  destruct (SFmul_60 r2 Hgr2 ltac:(lia)) as (Hgs & Hs & Herr2).
  set (s := SFmul prec emax r2 float_60) in *.
  exists (scaled a / 2 ^ 1200), (scaled y / 2 ^ 1200), s.
  assert (Hm59 : scaled y / 2 ^ 1200 <= 59).
  { assert (scaled y / 2 ^ 1200 < 60); [|lia].
    apply Z.div_lt_upper_bound; lia. }
  split.
  { unfold _deg_to_dms. change (py_abs (PFloat x)) with (PFloat a).
    change (py_int (PFloat a)) with (int_of_float a).
    rewrite (int_of_float_scaled a Hg), result_bind_OK.
    rewrite Hsub1, result_bind_OK.
    change (py_mul (PFloat r1) (PInt 60)) with (OK (PFloat y)).
    rewrite result_bind_OK.
    change (py_int (PFloat y)) with (int_of_float y).
    rewrite (int_of_float_scaled y Hgy), result_bind_OK.
    rewrite Hsub2, result_bind_OK.
    change (py_mul (PFloat r2) (PInt 60)) with (OK (PFloat s)).
    rewrite result_bind_OK.
    rewrite !rat_int, !result_bind_OK.
    reflexivity. }
  split; [exact Hgs|]. split; [reflexivity|]. split; [exact Hd0|].
  split; [lia|]. split; [exact Hs|].
  (* the two roundings, each at most [2^-48] *)
  set (V := scaled a) in *. set (Y := scaled y) in *. set (Z3 := scaled s) in *.
  set (d := V / 2 ^ 1200) in *. set (m := Y / 2 ^ 1200) in *.
  rewrite Hsr1 in Herr1. rewrite Hsr2 in Herr2.
  set (q1 := V mod 2 ^ 1200) in *. set (q2 := Y mod 2 ^ 1200) in *.
  replace (3600 * V - (3600 * d + 60 * m) * 2 ^ 1200 - Z3)
    with (- (Z3 - 60 * q2) - 60 * (Y - 60 * q1)) by lia.
  pose proof (pow2_pos 1152 ltac:(lia)). lia.
Qed.

(** The value of a float without its sign. *)
Lemma float_value_abs (x : spec_float) :
  (Qabs (float_value x) == float_value (SFabs x))%Q.
Proof.
  destruct x as [s|s| |s m e]; try reflexivity.
  unfold float_value, SFabs.
  destruct (0 <=? e).
  - unfold inject_Z, Qabs. simpl cond_Zopp.
    pose proof (pow2_pos e) as Hp.
    destruct s; simpl cond_Zopp.
    + rewrite Z.abs_opp, Z.abs_eq; [reflexivity|].
      destruct (Z_le_gt_dec 0 e); [specialize (Hp l); nia|].
      rewrite Z.pow_neg_r by lia. lia.
    + rewrite Z.abs_eq; [reflexivity|].
      destruct (Z_le_gt_dec 0 e); [specialize (Hp l); nia|].
      rewrite Z.pow_neg_r by lia. lia.
  - unfold Qabs. destruct s; reflexivity.
Qed.

(** [scaled] is the value times [2^1200]. *)
Lemma float_value_scaled (f : spec_float) :
  good f -> (float_value f == scaled f # Z.to_pos (2 ^ 1200))%Q.
Proof.
  pose proof (pow2_pos 1200 ltac:(lia)) as HS.
  intros [->|(m & e & -> & He & Hm)]; [reflexivity|].
  unfold float_value, scaled. simpl cond_Zopp.
  destruct (Z.leb_spec 0 e) as [H0|H0].
  - unfold Qeq, inject_Z. cbn [Qnum Qden]. rewrite Z2Pos.id by lia.
    rewrite Z.pow_add_r by lia. ring.
  - unfold Qeq. cbn [Qnum Qden]. rewrite Z2Pos.id by lia.
    rewrite Pos2Z.inj_pow, Z2Pos.id by lia.
    rewrite <- Z.mul_assoc, <- Z.pow_add_r by lia.
    f_equal. f_equal. lia.
Qed.

(** Half a unit of the denominator [10^6] is reached by some fraction. *)
Lemma nearest_millionth (n dn : Z) :
  0 < dn ->
  exists r : Z, 2 * Z.abs (n * 1000000 - r * dn) <= dn.
Proof.
  intros Hdn. exists ((2 * n * 1000000 + dn) / (2 * dn)).
  pose proof (Z.div_mod (2 * n * 1000000 + dn) (2 * dn) ltac:(lia)) as Hdm.
  pose proof (Z.mod_pos_bound (2 * n * 1000000 + dn) (2 * dn) ltac:(lia)) as Hm.
  set (r := (2 * n * 1000000 + dn) / (2 * dn)) in *.
  set (t := (2 * n * 1000000 + dn) mod (2 * dn)) in *.
  assert (2 * (n * 1000000 - r * dn) = t - dn) by lia.
  lia.
Qed.

(** [_rat] on a float [0 <= s < 60]: a fraction between 0 and 60, at
    most half a millionth from the float. *)
Lemma rat_seconds (s : spec_float) :
  good s -> 0 <= scaled s < 60 * 2 ^ 1200 ->
  exists p q : Z,
    _rat (PFloat s) max_den_default = OK (p, q) /\
    0 < q <= 1000000 /\ Z.gcd p q = 1 /\ 0 <= p <= 60 * q /\
    2000000 * Z.abs (q * scaled s - p * 2 ^ 1200) <= q * 2 ^ 1200.
Proof.
  intros Hg Hs. pose proof (pow2_pos 1200 ltac:(lia)) as HS.
  assert (Hfin : number_finite (PFloat s) = true).
  { destruct Hg as [->|(m & e & -> & _)]; reflexivity. }
  destruct (Fraction_of_number_finite (PFloat s) Hfin) as (n & dn & HF & Hgcd & Hv).
  pose proof (float_value_scaled s Hg) as Hsc.
  assert (Hn : n * 2 ^ 1200 = scaled s * Z.pos dn).
  { assert (E : (n # dn == scaled s # Z.to_pos (2 ^ 1200))%Q).
    { apply Qeq_trans with (float_value s); [apply Qeq_sym; exact Hv | exact Hsc]. }
    unfold Qeq in E. cbn [Qnum Qden] in E. rewrite Z2Pos.id in E by lia. exact E. }
  destruct (limit_denominator_closest n (Z.pos dn) 1000000 ltac:(lia) Hgcd ltac:(lia))
    as (p & q & HL & Hq & Hpq & Hbest).
  exists p, q. unfold _rat. rewrite HF, result_bind_OK.
  unfold max_den_default. rewrite HL, result_bind_OK. cbn [numerator denominator].
  split; [reflexivity|]. split; [exact Hq|]. split; [exact Hpq|].
  set (D := Z.pos dn) in *. assert (HD : 0 < D) by (unfold D; lia).
  assert (Hn0 : 0 <= n) by nia.
  assert (Hn60 : n < 60 * D) by nia.
  split; [split|].
  - (* not below [0 / 1] *)
    pose proof (Hbest 0 1 ltac:(lia)) as H0.
    destruct (Z_lt_le_dec p 0) as [Hneg|]; [|assumption].
    exfalso. assert (n * q < n * q - p * D) by nia. lia.
  - (* not above [60 / 1] *)
    pose proof (Hbest 60 1 ltac:(lia)) as H60.
    destruct (Z_lt_le_dec (60 * q) p) as [Hbig|]; [|assumption].
    exfalso. assert ((60 * D - n) * q < p * D - n * q) by nia.
    assert (Z.abs (n * 1 - 60 * D) * q = (60 * D - n) * q) by (rewrite Z.abs_neq by lia; ring).
    lia.
  - destruct (nearest_millionth n D HD) as (r & Hr).
    pose proof (Hbest r 1000000 ltac:(lia)) as Hc.
    assert (H2 : 2000000 * Z.abs (n * q - p * D) <= D * q).
    { assert (2 * (Z.abs (n * 1000000 - r * D) * q) <= D * q) by nia. lia. }
    assert (E : (n * q - p * D) * 2 ^ 1200 = D * (q * scaled s - p * 2 ^ 1200)) by nia.
    assert (H3 : Z.abs (n * q - p * D) * 2 ^ 1200 = D * Z.abs (q * scaled s - p * 2 ^ 1200)).
    { rewrite <- (Z.abs_eq (2 ^ 1200)) at 1 by lia. rewrite <- Z.abs_mul, E, Z.abs_mul.
      rewrite (Z.abs_eq D) by lia. reflexivity. }
    assert (H4 : D * (2000000 * Z.abs (q * scaled s - p * 2 ^ 1200)) <= D * (q * 2 ^ 1200)).
    { replace (D * (2000000 * Z.abs (q * scaled s - p * 2 ^ 1200)))
        with (2000000 * Z.abs (n * q - p * D) * 2 ^ 1200) by (rewrite <- Z.mul_assoc, H3; ring).
      replace (D * (q * 2 ^ 1200)) with (D * q * 2 ^ 1200) by ring.
      apply Z.mul_le_mono_nonneg_r; lia. }
    apply Z.mul_le_mono_pos_l in H4; assumption.
Qed.

(** [_deg_to_dms] on a float of binary64, with the values as integers. *)
Lemma deg_to_dms_scaled (x : spec_float) :
  is_finite x = true -> valid_binary prec emax x = true ->
  exists d m p q : Z,
    _deg_to_dms (PFloat x) = OK ((d, 1), (m, 1), (p, q)) /\
    d = scaled (SFabs x) / 2 ^ 1200 /\
    0 <= m <= 59 /\
    0 < q <= 1000000 /\ Z.gcd p q = 1 /\ 0 <= p <= 60 * q /\
    7000000000 * Z.abs (3600 * q * scaled (SFabs x)
                        - (3600 * q * d + 60 * q * m + p) * 2 ^ 1200)
      <= 3600 * q * 2 ^ 1200.
Proof.
  intros Hf Hv.
  destruct (deg_to_dms_chain x Hf Hv) as (d & m & s & Hrun & Hgs & Hd & Hd0 & Hm & Hs & Herr).
  destruct (rat_seconds s Hgs Hs) as (p & q & Hrat & Hq & Hpq & Hp & Hnear).
  exists d, m, p, q. rewrite Hrun, Hrat, result_bind_OK.
  split; [reflexivity|]. split; [exact Hd|]. split; [exact Hm|].
  split; [exact Hq|]. split; [exact Hpq|]. split; [exact Hp|].
  set (V := scaled (SFabs x)) in *. set (Z3 := scaled s) in *.
  set (A := 3600 * V - (3600 * d + 60 * m) * 2 ^ 1200 - Z3) in *.
  set (B := q * Z3 - p * 2 ^ 1200) in *.
  replace (3600 * q * V - (3600 * q * d + 60 * q * m + p) * 2 ^ 1200)
    with (q * A + B) by (unfold A, B; ring).
  assert (HW : 2 ^ 1200 = 2 ^ 48 * 2 ^ 1152) by reflexivity.
  pose proof (pow2_pos 1152 ltac:(lia)) as HW0.
  change (2 ^ 48) with 281474976710656 in HW.
  assert (HqA : q * Z.abs A <= q * (61 * 2 ^ 1152))
    by (apply Z.mul_le_mono_nonneg_l; lia).
  assert (Htri : Z.abs (q * A + B) <= q * Z.abs A + Z.abs B).
  { eapply Z.le_trans; [apply Z.abs_triangle|].
    rewrite Z.abs_mul, (Z.abs_eq q) by lia. lia. }
  set (QW := q * 2 ^ 1152) in *.
  assert (HQW : 0 < QW) by (unfold QW; nia).
  replace (q * (61 * 2 ^ 1152)) with (61 * QW) in HqA by (unfold QW; ring).
  replace (q * 2 ^ 1200) with (281474976710656 * QW) in Hnear by (unfold QW; rewrite HW; ring).
  replace (3600 * q * 2 ^ 1200) with (3600 * 281474976710656 * QW) by (unfold QW; rewrite HW; ring).
  lia.
Qed.

(** [_deg_to_dms] on every float of binary64 that is not an infinity or a
    NaN: it returns, without raising, degrees [d / 1] with [d] the
    integer part of [|x|], minutes [m / 1] with [0 <= m <= 59], and
    seconds [p / q] in lowest terms with [0 < q <= 1000000] and
    [0 <= p / q <= 60]. *)
Theorem deg_to_dms_ranges (x : spec_float) :
  is_finite x = true -> valid_binary prec emax x = true ->
  exists d m p q : Z,
    _deg_to_dms (PFloat x) = OK ((d, 1), (m, 1), (p, q)) /\
    (inject_Z d <= Qabs (float_value x) < inject_Z (d + 1))%Q /\
    0 <= m <= 59 /\
    0 < q <= 1000000 /\ Z.gcd p q = 1 /\ 0 <= p <= 60 * q.
Proof.
  intros Hf Hv.
  destruct (deg_to_dms_scaled x Hf Hv) as (d & m & p & q & Hrun & Hd & Hm & Hq & Hpq & Hp & _).
  exists d, m, p, q. split; [exact Hrun|]. split; [|auto].
  pose proof (valid_good x Hf Hv) as Hg.
  pose proof (pow2_pos 1200 ltac:(lia)) as HS.
  destruct (good_parts _ Hg) as (_ & _ & Hr & _ & Hsplit). rewrite <- Hd in Hsplit.
  assert (E : (Qabs (float_value x) == scaled (SFabs x) # Z.to_pos (2 ^ 1200))%Q).
  { eapply Qeq_trans; [apply float_value_abs | apply float_value_scaled, Hg]. }
  split.
  - eapply Qle_trans; [|apply Qeq_Qle, Qeq_sym, E].
    unfold Qle, inject_Z. cbn [Qnum Qden]. rewrite Z2Pos.id by lia. lia.
  - eapply Qle_lt_trans; [apply Qeq_Qle, E|].
    unfold Qlt, inject_Z. cbn [Qnum Qden]. rewrite Z2Pos.id by lia. lia.
Qed.

Lemma deg_to_dms_ranges_witness :
  is_finite Sample.lat_sydney = true /\
  valid_binary prec emax Sample.lat_sydney = true /\
  exists d m p q : Z,
    _deg_to_dms (PFloat Sample.lat_sydney) = OK ((d, 1), (m, 1), (p, q)) /\
    (inject_Z d <= Qabs (float_value Sample.lat_sydney) < inject_Z (d + 1))%Q /\
    0 <= m <= 59 /\
    0 < q <= 1000000 /\ Z.gcd p q = 1 /\ 0 <= p <= 60 * q.
Proof.
  split; [reflexivity|]. split; [reflexivity|].
  apply (deg_to_dms_ranges Sample.lat_sydney); reflexivity.
Defined.

(** The triple [_deg_to_dms] returns for a float [x] of binary64 denotes
    [|x|] to within one part in seven thousand million of a degree:
    [d + m / 60 + (p / q) / 3600] differs from [|x|] by at most
    [1 / 7000000000]. *)
Theorem deg_to_dms_accuracy (x : spec_float) (d m p q : Z) :
  is_finite x = true -> valid_binary prec emax x = true ->
  _deg_to_dms (PFloat x) = OK ((d, 1), (m, 1), (p, q)) ->
  (Qabs (Qabs (float_value x)
         - (inject_Z d + (m # 60) + (p # Z.to_pos q) * (1 # 3600)))
     <= 1 # 7000000000)%Q.
Proof.
  intros Hf Hv Hrun.
  destruct (deg_to_dms_scaled x Hf Hv)
    as (d' & m' & p' & q' & Hrun' & Hd & Hm & Hq & Hpq & Hp & Herr).
  rewrite Hrun in Hrun'. injection Hrun' as <- <- <- <-.
  pose proof (valid_good x Hf Hv) as Hg.
  pose proof (pow2_pos 1200 ltac:(lia)) as HS.
  assert (E : (Qabs (float_value x) == scaled (SFabs x) # Z.to_pos (2 ^ 1200))%Q).
  { eapply Qeq_trans; [apply float_value_abs | apply float_value_scaled, Hg]. }
  set (c := (inject_Z d + (m # 60) + (p # Z.to_pos q) * (1 # 3600))%Q).
  apply Qle_trans with (Qabs ((scaled (SFabs x) # Z.to_pos (2 ^ 1200)) - c)).
  { apply Qeq_Qle, Qabs_wd. unfold Qminus. apply Qplus_comp; [exact E | apply Qeq_refl]. }
  set (V := scaled (SFabs x)) in *. set (T := 2 ^ 1200) in *. clearbody V T.
  unfold c, Qle, Qabs, Qminus, Qplus, Qmult, Qopp, inject_Z. cbn [Qnum Qden].
  rewrite !Pos2Z.inj_mul, !Z2Pos.id by lia.
  replace (V * (1 * 60 * (q * 3600)) + - ((d * 60 + m * 1) * (q * 3600) + p * 1 * (1 * 60)) * T)
    with (60 * (3600 * q * V - (3600 * q * d + 60 * q * m + p) * T)) by ring.
  rewrite Z.abs_mul, (Z.abs_eq 60) by lia.
  replace (1 * (T * (1 * 60 * (q * 3600)))) with (60 * (3600 * q * T)) by ring.
  lia.
Qed.

Lemma deg_to_dms_accuracy_witness :
  is_finite Sample.lat_sydney = true /\
  valid_binary prec emax Sample.lat_sydney = true /\
  _deg_to_dms (PFloat Sample.lat_sydney) = OK ((33, 1), (51, 1), (54, 1)) /\
  (Qabs (Qabs (float_value Sample.lat_sydney)
         - (inject_Z 33 + (51 # 60) + (54 # Z.to_pos 1) * (1 # 3600)))
     <= 1 # 7000000000)%Q.
Proof.
  split; [reflexivity|]. split; [reflexivity|].
  split; [vm_compute; reflexivity|].
  apply (deg_to_dms_accuracy Sample.lat_sydney 33 51 54 1);
    [reflexivity | reflexivity | vm_compute; reflexivity].
Defined.

